(** * Eisenstein integers over [math/big]: a memory-level model of package [eisen]

    The package stores an Eisenstein integer [a + bω] as a struct of two
    [big.Int] components and exposes it through pointers.  Every method
    writes its result into the receiver, which may be the same struct as
    one of the operands, so the model keeps an explicit memory:

    - a heap of [Stein] structs, addressed by [Ptr p];
    - a heap of free-standing [big.Int] values ([new(big.Int)],
      [big.NewInt]), addressed by [Temp n];
    - [*big.Int] pointers, which point either at a free-standing integer or
      at the [l] / [r] field of a struct ([FieldL p], [FieldR p]).

    Arbitrary-precision integers are [Z].  A run-time panic ends the
    computation and keeps the memory reached so far.

    The sources hold two revisions of [stein.go]; they are embedded as the
    modules [V1] (accessors [L]/[R]/[SetL]/[SetR], results built in fresh
    integers and copied into the receiver) and [V2] (in-place [big.Int]
    operations on the receiver's fields, operands snapshotted in [Mul]). *)

From Stdlib Require Import ZArith Lia String Ascii DecimalString DecimalZ DecimalPos.
From stdpp Require Import base list.

Local Open Scope Z_scope.

(** ** Memory *)

Definition loc := nat.
Bind Scope nat_scope with loc.

(** A [*Stein]: nil or the address of an allocated struct. *)
Inductive ptr := Nil | Ptr (p : loc).

(** A [*big.Int]: the address of a field of a struct or of a free-standing
    integer. *)
Inductive iref := FieldL (p : loc) | FieldR (p : loc) | Temp (n : nat).

(** [type Stein struct { l, r big.Int }] *)
Record Stein := mkStein { l : Z; r : Z }.

Record mem := mkMem { steins : list Stein; ints : list Z }.

(** The two run-time panics the package can run into: a nil (or invalid)
    pointer dereference, and the panic raised inside [big.Int.Quo] when its
    divisor is zero. *)
Inductive panic := NilDereference | DivisionByZero.

Inductive outcome (A : Type) :=
| Ok (a : A) (m : mem)
| Panic (e : panic) (m : mem).
Arguments Ok {A} a m.
Arguments Panic {A} e m.

Definition M (A : Type) := mem -> outcome A.

Definition ret {A} (a : A) : M A := fun m => Ok a m.

Definition bind {A B} (c : M A) (k : A -> M B) : M B :=
  fun m => match c m with
           | Ok a m' => k a m'
           | Panic e m' => Panic e m'
           end.

Notation "x <- c ;; k" := (bind c (fun x => k))
  (at level 100, c at next level, right associativity).
Notation "c ;;; k" := (bind c (fun _ => k))
  (at level 100, right associativity).

(** Reading and writing through a [*big.Int]. *)
Definition load (a : iref) : M Z := fun m =>
  match a with
  | FieldL p => match steins m !! p with
                | Some c => Ok (l c) m
                | None => Panic NilDereference m
                end
  | FieldR p => match steins m !! p with
                | Some c => Ok (r c) m
                | None => Panic NilDereference m
                end
  | Temp n => match ints m !! n with
              | Some v => Ok v m
              | None => Panic NilDereference m
              end
  end.

Definition store (a : iref) (v : Z) : M unit := fun m =>
  match a with
  | FieldL p => match steins m !! p with
                | Some c => Ok tt (mkMem (<[p := mkStein v (r c)]> (steins m)) (ints m))
                | None => Panic NilDereference m
                end
  | FieldR p => match steins m !! p with
                | Some c => Ok tt (mkMem (<[p := mkStein (l c) v]> (steins m)) (ints m))
                | None => Panic NilDereference m
                end
  | Temp n => match ints m !! n with
              | Some _ => Ok tt (mkMem (steins m) (<[n := v]> (ints m)))
              | None => Panic NilDereference m
              end
  end.

(** [&z.l] and [&z.r]: taking the address of a field of a nil pointer
    panics. *)
Definition addr_l (z : ptr) : M iref := fun m =>
  match z with
  | Nil => Panic NilDereference m
  | Ptr p => Ok (FieldL p) m
  end.

Definition addr_r (z : ptr) : M iref := fun m =>
  match z with
  | Nil => Panic NilDereference m
  | Ptr p => Ok (FieldR p) m
  end.

(** [&Stein{a, b}]: a fresh struct holding the two given values. *)
Definition alloc_Stein (c : Stein) : M ptr := fun m =>
  Ok (Ptr (length (steins m))) (mkMem (steins m ++ [c]) (ints m)).

(** [new(Stein)]: a fresh struct with both components zero. *)
Definition new_Stein : M ptr := alloc_Stein (mkStein 0 0).

(** The decimal text of an integer, as [fmt] prints a [*big.Int] under
    [%v]: a minus sign for negative numbers, no sign otherwise. *)
Definition decimal (z : Z) : string := NilZero.string_of_int (Z.to_int z).

(** ** The [math/big] operations the package uses *)
Module Int.

(** [big.NewInt(v)] *)
Definition NewInt (v : Z) : M iref := fun m =>
  Ok (Temp (length (ints m))) (mkMem (steins m) (ints m ++ [v])).

(** [new(big.Int)] *)
Definition new : M iref := NewInt 0.

(** [Set] (a reserved word here, hence the underscore) *)
Definition Set_ (z x : iref) : M iref :=
  vx <- load x ;; store z vx ;;; ret z.

Definition Neg (z x : iref) : M iref :=
  vx <- load x ;; store z (- vx) ;;; ret z.

Definition Add (z x y : iref) : M iref :=
  vx <- load x ;; vy <- load y ;; store z (vx + vy) ;;; ret z.

Definition Sub (z x y : iref) : M iref :=
  vx <- load x ;; vy <- load y ;; store z (vx - vy) ;;; ret z.

Definition Mul (z x y : iref) : M iref :=
  vx <- load x ;; vy <- load y ;; store z (vx * vy) ;;; ret z.

(** Truncated division; panics on a zero divisor. *)
Definition Quo (z x y : iref) : M iref :=
  vx <- load x ;; vy <- load y ;;
  if vy =? 0 then (fun m => Panic DivisionByZero m)
  else store z (Z.quot vx vy) ;;; ret z.

(** [Cmp]: -1, 0 or +1 as [x] is below, equal to or above [y]. *)
Definition Cmp (x y : iref) : M Z :=
  vx <- load x ;; vy <- load y ;;
  ret (match vx ?= vy with Lt => -1 | Eq => 0 | Gt => 1 end).

(** [Sign]: -1, 0 or +1. *)
Definition Sign (x : iref) : M Z :=
  vx <- load x ;; ret (Z.sgn vx).

(** [fmt.Sprintf("%v", x)] *)
Definition Text (x : iref) : M string :=
  vx <- load x ;; ret (decimal vx).

End Int.

(** ** First revision ([stein.go], lines 1-186)

    Components are reached through the accessors [L] and [R], which return
    pointers into the struct, and replaced through [SetL] and [SetR].  Every
    [big.Int] result is computed in a fresh integer first. *)
Module V1.

(** [func (z *Stein) L() *big.Int { return &z.l }] *)
Definition L (z : ptr) : M iref := addr_l z.

Definition R (z : ptr) : M iref := addr_r z.

(** [z.l = *a] *)
Definition SetL (z : ptr) (a : iref) : M unit :=
  zl <- addr_l z ;; v <- load a ;; store zl v.

(** [z.r = *b] *)
Definition SetR (z : ptr) (b : iref) : M unit :=
  zr <- addr_r z ;; v <- load b ;; store zr v.

Definition Copy (z y : ptr) : M ptr :=
  yl <- L y ;; SetL z yl ;;;
  yr <- R y ;; SetR z yr ;;;
  ret z.

Definition New (a b : iref) : M ptr :=
  z <- new_Stein ;;
  SetL z a ;;;
  SetR z b ;;;
  ret z.

Definition Neg (z y : ptr) : M ptr :=
  n <- Int.new ;; yl <- L y ;; v <- Int.Neg n yl ;; SetL z v ;;;
  n <- Int.new ;; yr <- R y ;; v <- Int.Neg n yr ;; SetR z v ;;;
  ret z.

Definition Conj (z y : ptr) : M ptr :=
  n <- Int.new ;; yl <- L y ;; yr <- R y ;; v <- Int.Sub n yl yr ;; SetL z v ;;;
  n <- Int.new ;; yr <- R y ;; v <- Int.Neg n yr ;; SetR z v ;;;
  ret z.

(** [a], [b], [c], [d] are pointers into [x] and [y]: they are read when
    the products are formed, not when they are bound. *)
Definition Mul (z x y : ptr) : M ptr :=
  a <- L x ;; b <- R x ;;
  c <- L y ;; d <- R y ;;
  s <- Int.new ;; t <- Int.new ;; u <- Int.new ;; v <- Int.new ;;
  s1 <- Int.Mul s a c ;; u1 <- Int.Mul u d b ;; s2 <- Int.Sub s s1 u1 ;;
  SetL z s2 ;;;
  t1 <- Int.Mul t d a ;; u2 <- Int.Mul u b c ;; t2 <- Int.Add t t1 u2 ;;
  SetR z t2 ;;;
  zr <- R z ;; v1 <- Int.Mul v b d ;; v2 <- Int.Sub v zr v1 ;;
  SetR z v2 ;;;
  ret z.

Definition Quad (z : ptr) : M iref :=
  quad <- Int.new ;;
  zl <- L z ;; zl' <- L z ;; q1 <- Int.Mul quad zl zl' ;;
  n <- Int.new ;; zr <- R z ;; zr' <- R z ;; q2 <- Int.Mul n zr zr' ;;
  Int.Add quad q1 q2 ;;;
  n <- Int.new ;; zl <- L z ;; zr <- R z ;; q3 <- Int.Mul n zl zr ;;
  Int.Sub quad quad q3 ;;;
  ret quad.

Definition Quo (z x y : ptr) : M ptr :=
  quad <- Quad y ;;
  Conj z y ;;;
  Mul z x z ;;;
  n <- Int.new ;; zl <- L z ;; q <- Int.Quo n zl quad ;; SetL z q ;;;
  n <- Int.new ;; zr <- R z ;; q <- Int.Quo n zr quad ;; SetR z q ;;;
  ret z.

Definition Associates (z : ptr) : M (ptr * ptr * ptr * ptr * ptr * ptr) :=
  i0 <- Int.NewInt 0 ;; i1 <- Int.NewInt 1 ;; ω <- New i0 i1 ;;
  n <- new_Stein ;; a <- Copy n z ;;
  n <- new_Stein ;; b <- Neg n z ;;
  n <- new_Stein ;; c <- Mul n z ω ;;
  Neg ω ω ;;;
  n <- new_Stein ;; d <- Mul n z ω ;;
  Mul ω ω ω ;;;
  n <- new_Stein ;; e <- Mul n z ω ;;
  Neg ω ω ;;;
  n <- new_Stein ;; f <- Mul n z ω ;;
  ret (a, b, c, d, e, f).


(** [if z.L().Cmp(y.L()) != 0 || z.R().Cmp(y.R()) != 0 { return false }]:
    the right components are compared only when the left ones agree. *)
Definition Equals (z y : ptr) : M bool :=
  zl <- L z ;; yl <- L y ;; c1 <- Int.Cmp zl yl ;;
  (if negb (c1 =? 0) then ret false
   else
     zr <- R z ;; yr <- R y ;; c2 <- Int.Cmp zr yr ;;
     (if negb (c2 =? 0) then ret false else ret true)).

Definition Scal (z y : ptr) (a : iref) : M ptr :=
  n <- Int.new ;; yl <- L y ;; v <- Int.Mul n yl a ;; SetL z v ;;;
  n <- Int.new ;; yr <- R y ;; v <- Int.Mul n yr a ;; SetR z v ;;;
  ret z.

Definition Add (z x y : ptr) : M ptr :=
  n <- Int.new ;; xl <- L x ;; yl <- L y ;; v <- Int.Add n xl yl ;; SetL z v ;;;
  n <- Int.new ;; xr <- R x ;; yr <- R y ;; v <- Int.Add n xr yr ;; SetR z v ;;;
  ret z.

Definition Sub (z x y : ptr) : M ptr :=
  n <- Int.new ;; xl <- L x ;; yl <- L y ;; v <- Int.Sub n xl yl ;; SetL z v ;;;
  n <- Int.new ;; xr <- R x ;; yr <- R y ;; v <- Int.Sub n xr yr ;; SetR z v ;;;
  ret z.

(** [String] (the name of a constructor here, hence the underscore).  The
    five pieces are joined with the empty separator. *)
Definition String_ (z : ptr) : M string :=
  zl <- L z ;; a1 <- Int.Text zl ;;
  zr <- R z ;; s <- Int.Sign zr ;;
  a2 <- (if s =? -1
         then (zr <- R z ;; Int.Text zr)
         else (zr <- R z ;; t <- Int.Text zr ;; ret (String.append "+" t))) ;;
  ret (String.concat "" ["("; a1; a2; "ω"; ")"]%string).

End V1.

(** ** Second revision ([stein.go], lines 187-374)

    The [big.Int] operations work in place on the receiver's fields. *)
Module V2.

(** [&Stein{*big.NewInt(0), *big.NewInt(1)}] *)
Definition Omega : M ptr :=
  i0 <- Int.NewInt 0 ;; v0 <- load i0 ;;
  i1 <- Int.NewInt 1 ;; v1 <- load i1 ;;
  alloc_Stein (mkStein v0 v1).

Definition Copy (z y : ptr) : M ptr :=
  zl <- addr_l z ;; yl <- addr_l y ;; Int.Set_ zl yl ;;;
  zr <- addr_r z ;; yr <- addr_r y ;; Int.Set_ zr yr ;;;
  ret z.

Definition Neg (z y : ptr) : M ptr :=
  zl <- addr_l z ;; yl <- addr_l y ;; Int.Neg zl yl ;;;
  zr <- addr_r z ;; yr <- addr_r y ;; Int.Neg zr yr ;;;
  ret z.

Definition Conj (z y : ptr) : M ptr :=
  zl <- addr_l z ;; yl <- addr_l y ;; yr <- addr_r y ;; Int.Sub zl yl yr ;;;
  zr <- addr_r z ;; yr <- addr_r y ;; Int.Neg zr yr ;;;
  ret z.

(** The four operand components are copied into fresh integers before
    anything is written to [z]. *)
Definition Mul (z x y : ptr) : M ptr :=
  n <- Int.new ;; xl <- addr_l x ;; a <- Int.Set_ n xl ;;
  n <- Int.new ;; xr <- addr_r x ;; b <- Int.Set_ n xr ;;
  n <- Int.new ;; yl <- addr_l y ;; c <- Int.Set_ n yl ;;
  n <- Int.new ;; yr <- addr_r y ;; d <- Int.Set_ n yr ;;
  temp <- Int.new ;;
  zl <- addr_l z ;; zl' <- addr_l z ;;
  p1 <- Int.Mul zl' a c ;; p2 <- Int.Mul temp d b ;; Int.Sub zl p1 p2 ;;;
  zr <- addr_r z ;; zr' <- addr_r z ;;
  p3 <- Int.Mul zr' d a ;; p4 <- Int.Mul temp b c ;; Int.Add zr p3 p4 ;;;
  zr <- addr_r z ;; zr' <- addr_r z ;;
  p5 <- Int.Mul temp b d ;; Int.Sub zr zr' p5 ;;;
  ret z.

Definition Quad (z : ptr) : M iref :=
  quad <- Int.new ;;
  temp <- Int.new ;;
  zl <- addr_l z ;; zl' <- addr_l z ;; q1 <- Int.Mul quad zl zl' ;;
  zr <- addr_r z ;; zr' <- addr_r z ;; q2 <- Int.Mul temp zr zr' ;;
  Int.Add quad q1 q2 ;;;
  zl <- addr_l z ;; zr <- addr_r z ;; q3 <- Int.Mul temp zl zr ;;
  Int.Sub quad quad q3 ;;;
  ret quad.

Definition Quo (z x y : ptr) : M ptr :=
  quad <- Quad y ;;
  Conj z y ;;;
  Mul z x z ;;;
  zl <- addr_l z ;; zl' <- addr_l z ;; Int.Quo zl zl' quad ;;;
  zr <- addr_r z ;; zr' <- addr_r z ;; Int.Quo zr zr' quad ;;;
  ret z.

(** The six results are named results of pointer type: they are nil when
    the body starts, and the body never assigns them. *)
Definition Associates (z : ptr) : M (ptr * ptr * ptr * ptr * ptr * ptr) :=
  let a := Nil in let b := Nil in let c := Nil in
  let d := Nil in let e := Nil in let f := Nil in
  Copy a z ;;;
  Neg b z ;;;
  unit <- Omega ;;
  Mul c z unit ;;;
  Neg unit unit ;;;
  Mul d z unit ;;;
  Mul unit unit unit ;;;
  Mul e z unit ;;;
  Neg unit unit ;;;
  Mul f z unit ;;;
  ret (a, b, c, d, e, f).


Definition Equals (z y : ptr) : M bool :=
  zl <- addr_l z ;; yl <- addr_l y ;; c1 <- Int.Cmp zl yl ;;
  (if negb (c1 =? 0) then ret false
   else
     zr <- addr_r z ;; yr <- addr_r y ;; c2 <- Int.Cmp zr yr ;;
     (if negb (c2 =? 0) then ret false else ret true)).

Definition New (a b : iref) : M ptr :=
  z <- new_Stein ;;
  zl <- addr_l z ;; Int.Set_ zl a ;;;
  zr <- addr_r z ;; Int.Set_ zr b ;;;
  ret z.

Definition Scal (z y : ptr) (a : iref) : M ptr :=
  zl <- addr_l z ;; yl <- addr_l y ;; Int.Mul zl yl a ;;;
  zr <- addr_r z ;; yr <- addr_r y ;; Int.Mul zr yr a ;;;
  ret z.

Definition Add (z x y : ptr) : M ptr :=
  zl <- addr_l z ;; xl <- addr_l x ;; yl <- addr_l y ;; Int.Add zl xl yl ;;;
  zr <- addr_r z ;; xr <- addr_r x ;; yr <- addr_r y ;; Int.Add zr xr yr ;;;
  ret z.

Definition Sub (z x y : ptr) : M ptr :=
  zl <- addr_l z ;; xl <- addr_l x ;; yl <- addr_l y ;; Int.Sub zl xl yl ;;;
  zr <- addr_r z ;; xr <- addr_r x ;; yr <- addr_r y ;; Int.Sub zr xr yr ;;;
  ret z.

Definition String_ (z : ptr) : M string :=
  zl <- addr_l z ;; a1 <- Int.Text zl ;;
  zr <- addr_r z ;; s <- Int.Sign zr ;;
  a2 <- (if s =? -1
         then (zr <- addr_r z ;; Int.Text zr)
         else (zr <- addr_r z ;; t <- Int.Text zr ;; ret (String.append "+" t))) ;;
  ret (String.concat "" ["("; a1; a2; "ω"; ")"]%string).

End V2.

(** ** The operations as the specification words them

    Used to state that the code refines them; each is proved against the
    code below. *)
Module Spec.

(** "left' = a - b, right' = -b" *)
Definition conjugate (x : Stein) : Stein := mkStein (l x - r x) (- r x).

(** "left' = ac - bd, right' = ad + bc - bd" *)
Definition multiply (x y : Stein) : Stein :=
  mkStein (l x * l y - r x * r y) (l x * r y + r x * l y - r x * r y).

(** "quadrance(x) = a² + b² - ab" *)
Definition quadrance (x : Stein) : Z := l x * l x + r x * r x - l x * r x.

(** "compute n = quadrance(y); compute p = x · conjugate(y); then divide
    each component of p by n using truncating integer division" *)
Definition quotient (x y : Stein) : Stein :=
  let n := quadrance y in
  let p := multiply x (conjugate y) in
  mkStein (Z.quot (l p) n) (Z.quot (r p) n).

End Spec.

(** ** Reading results back *)

Definition deref (m : mem) (p : ptr) : option Stein :=
  match p with
  | Nil => None
  | Ptr k => steins m !! k
  end.

(** The structs left in memory by a run that returned. *)
Definition final_steins {A} (o : outcome A) : option (list Stein) :=
  match o with
  | Ok _ m => Some (steins m)
  | Panic _ _ => None
  end.

(** The six values a run of [Associates] returned, in order. *)
Definition six_values (o : outcome (ptr * ptr * ptr * ptr * ptr * ptr))
  : option (list Stein) :=
  match o with
  | Ok (a, b, c, d, e, f) m => mapM (deref m) [a; b; c; d; e; f]
  | Panic _ _ => None
  end.

(** The statements of [Quo] that come before its first component
    division. *)
Definition V1_Quo_before_division (z x y : ptr) : M (iref * iref * iref) :=
  quad <- V1.Quad y ;;
  V1.Conj z y ;;;
  V1.Mul z x z ;;;
  n <- Int.new ;; zl <- V1.L z ;;
  ret (n, zl, quad).

Definition V2_Quo_before_division (z x y : ptr) : M (iref * iref * iref) :=
  quad <- V2.Quad y ;;
  V2.Conj z y ;;;
  V2.Mul z x z ;;;
  zl <- addr_l z ;; zl' <- addr_l z ;;
  ret (zl, zl', quad).

(** ** Text of a value *)




(** ** The property tests

    Each definition is the function a test of the package hands to
    [quick.Check], written against the second revision (the one with the
    [Generate] method the tests need).  Values the test builds once outside
    the function ([zero], [one]) are parameters. *)
Module Tests.
Import V2.

Definition TestAddCommutative (x y : ptr) : M bool :=
  n <- new_Stein ;; l <- Add n x y ;;
  n <- new_Stein ;; r <- Add n y x ;;
  Equals l r.

Definition TestAddAssociative (x y z : ptr) : M bool :=
  l <- new_Stein ;; r <- new_Stein ;;
  t <- Add l x y ;; Add l t z ;;;
  t <- Add r y z ;; Add r x t ;;;
  Equals l r.

Definition TestAddZero (zero x : ptr) : M bool :=
  n <- new_Stein ;; l <- Add n x zero ;;
  Equals l x.

Definition TestMulCommutative (x y : ptr) : M bool :=
  n <- new_Stein ;; l <- Mul n x y ;;
  n <- new_Stein ;; r <- Mul n y x ;;
  Equals l r.

Definition TestMulAssociative (x y z : ptr) : M bool :=
  l <- new_Stein ;; r <- new_Stein ;;
  t <- Mul l x y ;; Mul l t z ;;;
  t <- Mul r y z ;; Mul r x t ;;;
  Equals l r.

Definition TestMulOne (one x : ptr) : M bool :=
  n <- new_Stein ;; l <- Mul n x one ;;
  Equals l x.

Definition TestNegInvolutive (x : ptr) : M bool :=
  l <- new_Stein ;;
  t <- Neg l x ;; Neg l t ;;;
  Equals l x.

Definition TestConjInvolutive (x : ptr) : M bool :=
  l <- new_Stein ;;
  t <- Conj l x ;; Conj l t ;;;
  Equals l x.

Definition TestNegConjCommutative (x : ptr) : M bool :=
  l <- new_Stein ;; r <- new_Stein ;;
  t <- Conj l x ;; Neg l t ;;;
  t <- Neg r x ;; Conj r t ;;;
  Equals l r.

Definition TestMulConjAntiDistributive (x y : ptr) : M bool :=
  l <- new_Stein ;; r <- new_Stein ;;
  t <- Mul l x y ;; Conj l t ;;;
  t <- Conj r y ;; n <- new_Stein ;; u <- Conj n x ;; Mul r t u ;;;
  Equals l r.

Definition TestAddScalDouble (x : ptr) : M bool :=
  l <- new_Stein ;; r <- new_Stein ;;
  Add l x x ;;;
  two <- Int.NewInt 2 ;; Scal r x two ;;;
  Equals l r.

Definition TestSubAntiCommutative (x y : ptr) : M bool :=
  l <- new_Stein ;; r <- new_Stein ;;
  Sub l x y ;;;
  Sub r y x ;;;
  Neg r r ;;;
  Equals l r.

Definition TestAddConjDistributive (x y : ptr) : M bool :=
  l <- new_Stein ;; r <- new_Stein ;;
  Add l x y ;;;
  Conj l l ;;;
  t <- Conj r x ;; n <- new_Stein ;; u <- Conj n y ;; Add r t u ;;;
  Equals l r.

Definition TestSubConjDistributive (x y : ptr) : M bool :=
  l <- new_Stein ;; r <- new_Stein ;;
  Sub l x y ;;;
  Conj l l ;;;
  t <- Conj r x ;; n <- new_Stein ;; u <- Conj n y ;; Sub r t u ;;;
  Equals l r.

Definition TestAddScalDistributive (x y : ptr) : M bool :=
  a <- Int.NewInt 2 ;;
  l <- new_Stein ;; r <- new_Stein ;;
  t <- Add l x y ;; Scal l t a ;;;
  t <- Scal r x a ;; n <- new_Stein ;; u <- Scal n y a ;; Add r t u ;;;
  Equals l r.

Definition TestSubScalDistributive (x y : ptr) : M bool :=
  a <- Int.NewInt 2 ;;
  l <- new_Stein ;; r <- new_Stein ;;
  t <- Sub l x y ;; Scal l t a ;;;
  t <- Scal r x a ;; n <- new_Stein ;; u <- Scal n y a ;; Sub r t u ;;;
  Equals l r.

Definition TestAddNegSub (x y : ptr) : M bool :=
  l <- new_Stein ;; r <- new_Stein ;;
  Sub l x y ;;;
  t <- Neg r y ;; Add r x t ;;;
  Equals l r.

Definition TestQuadPositive (x : ptr) : M bool :=
  q <- Quad x ;; s <- Int.Sign q ;; ret (0 <? s).

End Tests.

(** ** Stepping through the memory monad *)

Lemma bind_ok {A B} (c : M A) (k : A -> M B) m a m' :
  c m = Ok a m' -> bind c k m = k a m'.
Proof. intros H. unfold bind. now rewrite H. Qed.

Lemma bind_panic {A B} (c : M A) (k : A -> M B) m e m' :
  c m = Panic e m' -> bind c k m = Panic e m'.
Proof. intros H. unfold bind. now rewrite H. Qed.

Section Access.
Variables (S : list Stein) (I : list Z).

Lemma load_FieldL p c :
  S !! p = Some c -> load (FieldL p) (mkMem S I) = Ok (l c) (mkMem S I).
Proof. intros H. unfold load. simpl. now rewrite H. Qed.

Lemma load_FieldR p c :
  S !! p = Some c -> load (FieldR p) (mkMem S I) = Ok (r c) (mkMem S I).
Proof. intros H. unfold load. simpl. now rewrite H. Qed.

Lemma load_Temp n v :
  I !! n = Some v -> load (Temp n) (mkMem S I) = Ok v (mkMem S I).
Proof. intros H. unfold load. simpl. now rewrite H. Qed.

Lemma store_FieldL p c v :
  S !! p = Some c ->
  store (FieldL p) v (mkMem S I) = Ok tt (mkMem (<[p := mkStein v (r c)]> S) I).
Proof. intros H. unfold store. simpl. now rewrite H. Qed.

Lemma store_FieldR p c v :
  S !! p = Some c ->
  store (FieldR p) v (mkMem S I) = Ok tt (mkMem (<[p := mkStein (l c) v]> S) I).
Proof. intros H. unfold store. simpl. now rewrite H. Qed.

Lemma store_Temp n w v :
  I !! n = Some w ->
  store (Temp n) v (mkMem S I) = Ok tt (mkMem S (<[n := v]> I)).
Proof. intros H. unfold store. simpl. now rewrite H. Qed.
End Access.

(** Free-standing integers allocated on top of the caller's [I]. *)
Section Temps.
Context {A : Type}.
Implicit Types (I ts : list A).

Lemma tmp_lookup I ts k : (I ++ ts) !! (length I + k)%nat = ts !! k.
Proof. induction I; simpl; auto. Qed.

Lemma tmp_lookup0 I ts : (I ++ ts) !! length I = ts !! 0%nat.
Proof. rewrite <- (tmp_lookup I ts 0). f_equal. lia. Qed.

Lemma tmp_insert0 I ts (v : A) : <[length I := v]> (I ++ ts) = I ++ <[0%nat := v]> ts.
Proof. rewrite <- insert_app_r. f_equal. lia. Qed.
End Temps.

Section IntOps.
Variables (z x y : iref) (m m' : mem) (vx vy : Z).

Lemma Int_Set_ok :
  load x m = Ok vx m -> store z vx m = Ok tt m' -> Int.Set_ z x m = Ok z m'.
Proof. intros Hx Hz. unfold Int.Set_. rewrite (bind_ok _ _ _ _ _ Hx), (bind_ok _ _ _ _ _ Hz). reflexivity. Qed.

Lemma Int_Neg_ok :
  load x m = Ok vx m -> store z (- vx) m = Ok tt m' -> Int.Neg z x m = Ok z m'.
Proof. intros Hx Hz. unfold Int.Neg. rewrite (bind_ok _ _ _ _ _ Hx), (bind_ok _ _ _ _ _ Hz). reflexivity. Qed.

Lemma Int_Add_ok :
  load x m = Ok vx m -> load y m = Ok vy m -> store z (vx + vy) m = Ok tt m' ->
  Int.Add z x y m = Ok z m'.
Proof.
  intros Hx Hy Hz. unfold Int.Add.
  rewrite (bind_ok _ _ _ _ _ Hx), (bind_ok _ _ _ _ _ Hy), (bind_ok _ _ _ _ _ Hz). reflexivity.
Qed.

Lemma Int_Sub_ok :
  load x m = Ok vx m -> load y m = Ok vy m -> store z (vx - vy) m = Ok tt m' ->
  Int.Sub z x y m = Ok z m'.
Proof.
  intros Hx Hy Hz. unfold Int.Sub.
  rewrite (bind_ok _ _ _ _ _ Hx), (bind_ok _ _ _ _ _ Hy), (bind_ok _ _ _ _ _ Hz). reflexivity.
Qed.

Lemma Int_Mul_ok :
  load x m = Ok vx m -> load y m = Ok vy m -> store z (vx * vy) m = Ok tt m' ->
  Int.Mul z x y m = Ok z m'.
Proof.
  intros Hx Hy Hz. unfold Int.Mul.
  rewrite (bind_ok _ _ _ _ _ Hx), (bind_ok _ _ _ _ _ Hy), (bind_ok _ _ _ _ _ Hz). reflexivity.
Qed.

Lemma Int_Quo_ok :
  load x m = Ok vx m -> load y m = Ok vy m -> vy <> 0 ->
  store z (Z.quot vx vy) m = Ok tt m' ->
  Int.Quo z x y m = Ok z m'.
Proof.
  intros Hx Hy Hn Hz. unfold Int.Quo.
  rewrite (bind_ok _ _ _ _ _ Hx), (bind_ok _ _ _ _ _ Hy).
  destruct (Z.eqb_spec vy 0) as [E|_]; [contradiction|].
  rewrite (bind_ok _ _ _ _ _ Hz). reflexivity.
Qed.

Lemma Int_Quo_zero :
  load x m = Ok vx m -> load y m = Ok 0 m -> Int.Quo z x y m = Panic DivisionByZero m.
Proof.
  intros Hx Hy. unfold Int.Quo.
  rewrite (bind_ok _ _ _ _ _ Hx), (bind_ok _ _ _ _ _ Hy). reflexivity.
Qed.
End IntOps.

(** Symbolic execution: [step] runs the first statement of a [bind] chain. *)
Ltac solve_lookup :=
  match goal with
  | |- _ !! _ = Some _ =>
      first
        [ eassumption
        | rewrite list_lookup_insert_eq by (eapply lookup_lt_Some; eassumption); reflexivity
        | rewrite list_lookup_insert_ne by (assumption || (apply not_eq_sym; assumption) || lia);
          solve_lookup
        | rewrite tmp_lookup0; reflexivity
        | rewrite tmp_lookup; reflexivity
        | rewrite lookup_app_l by (eapply lookup_lt_Some; eassumption); eassumption ]
  end.

Ltac solve_access :=
  first
    [ eapply load_FieldL; solve_lookup
    | eapply load_FieldR; solve_lookup
    | eapply load_Temp; solve_lookup
    | eapply store_FieldL; solve_lookup
    | eapply store_FieldR; solve_lookup
    | eapply store_Temp; solve_lookup ].

Ltac norm_mem :=
  cbn [l r steins ints];
  repeat first
    [ rewrite list_insert_insert_eq
    | rewrite <- app_assoc
    | rewrite length_app
    | rewrite tmp_insert0
    | rewrite insert_app_r ];
  cbn [l r steins ints length app insert list_insert].

Ltac solve_prim :=
  idtac;
  first
    [ reflexivity
    | solve_access
    | eapply Int_Set_ok; solve_access
    | eapply Int_Neg_ok; solve_access
    | eapply Int_Add_ok; solve_access
    | eapply Int_Sub_ok; solve_access
    | eapply Int_Mul_ok; solve_access
    | progress unfold V1.SetL, V1.SetR; repeat step; solve_prim ]
with step :=
  idtac;
  match goal with
  | |- bind ?c ?k ?m = _ =>
      erewrite (bind_ok c k m) by solve_prim; norm_mem
  end.

Ltac run := repeat step; unfold ret.

Ltac alias_cases px pz :=
  destruct (decide (px = pz)) as [->|?]; simplify_eq.

(** ** What each method leaves in memory *)
Section Runs.
Variables (S : list Stein) (I : list Z).

Lemma V1_Quad_run pz a b :
  S !! pz = Some (mkStein a b) ->
  V1.Quad (Ptr pz) (mkMem S I)
  = Ok (Temp (length I)) (mkMem S (I ++ [a * a + b * b - a * b; b * b; a * b])).
Proof. intros Hz. unfold V1.Quad. run. reflexivity. Qed.

Lemma V2_Quad_run pz a b :
  S !! pz = Some (mkStein a b) ->
  V2.Quad (Ptr pz) (mkMem S I)
  = Ok (Temp (length I)) (mkMem S (I ++ [a * a + b * b - a * b; a * b])).
Proof. intros Hz. unfold V2.Quad. run. reflexivity. Qed.

Lemma V1_Conj_run pz py cz c d :
  S !! pz = Some cz -> S !! py = Some (mkStein c d) ->
  V1.Conj (Ptr pz) (Ptr py) (mkMem S I)
  = Ok (Ptr pz) (mkMem (<[pz := mkStein (c - d) (- d)]> S) (I ++ [c - d; - d])).
Proof.
  intros Hz Hy. alias_cases py pz; unfold V1.Conj; run; reflexivity.
Qed.

Lemma V2_Conj_run pz py cz c d :
  S !! pz = Some cz -> S !! py = Some (mkStein c d) ->
  V2.Conj (Ptr pz) (Ptr py) (mkMem S I)
  = Ok (Ptr pz) (mkMem (<[pz := mkStein (c - d) (- d)]> S) I).
Proof.
  intros Hz Hy. alias_cases py pz; unfold V2.Conj; run; reflexivity.
Qed.

(** [V1.Mul] with a receiver that is neither operand. *)
Lemma V1_Mul_run pz px py cz a b c d :
  S !! pz = Some cz -> S !! px = Some (mkStein a b) -> S !! py = Some (mkStein c d) ->
  pz <> px -> pz <> py ->
  V1.Mul (Ptr pz) (Ptr px) (Ptr py) (mkMem S I)
  = Ok (Ptr pz)
      (mkMem (<[pz := mkStein (a * c - d * b) (d * a + b * c - b * d)]> S)
             (I ++ [a * c - d * b; d * a + b * c; b * c; d * a + b * c - b * d])).
Proof. intros Hz Hx Hy Hzx Hzy. unfold V1.Mul. run. reflexivity. Qed.

(** [V2.Mul] with any receiver. *)
Lemma V2_Mul_run pz px py cz a b c d :
  S !! pz = Some cz -> S !! px = Some (mkStein a b) -> S !! py = Some (mkStein c d) ->
  V2.Mul (Ptr pz) (Ptr px) (Ptr py) (mkMem S I)
  = Ok (Ptr pz)
      (mkMem (<[pz := mkStein (a * c - d * b) (d * a + b * c - b * d)]> S)
             (I ++ [a; b; c; d; b * d])).
Proof.
  intros Hz Hx Hy.
  alias_cases px pz; alias_cases py pz; unfold V2.Mul; run; reflexivity.
Qed.
End Runs.

(** [call] runs the first statement of a [bind] chain when it is one of the
    methods above or a division. *)
Ltac call :=
  match goal with
  | |- bind ?c ?k ?m = _ =>
      erewrite (bind_ok c k m)
        by first
             [ solve_prim
             | eapply V1_Quad_run; solve_lookup
             | eapply V2_Quad_run; solve_lookup
             | eapply V1_Conj_run; solve_lookup
             | eapply V2_Conj_run; solve_lookup
             | eapply V1_Mul_run; [solve_lookup | solve_lookup | solve_lookup | assumption | assumption]
             | eapply V2_Mul_run; solve_lookup
             | eapply Int_Quo_ok; [solve_access | solve_access | assumption | solve_access]
             | unfold V1.Mul; repeat step; reflexivity ];
      norm_mem
  end.

Section Quotients.
Variables (S : list Stein) (I : list Z).

Lemma V2_Quo_run pz px py cz a b c d :
  S !! pz = Some cz -> S !! px = Some (mkStein a b) -> S !! py = Some (mkStein c d) ->
  pz <> px ->
  c * c + d * d - c * d <> 0 ->
  exists ts,
  V2.Quo (Ptr pz) (Ptr px) (Ptr py) (mkMem S I)
  = Ok (Ptr pz)
      (mkMem (<[pz := mkStein (Z.quot (a * (c - d) - - d * b) (c * c + d * d - c * d))
                              (Z.quot (- d * a + b * (c - d) - b * - d) (c * c + d * d - c * d))]> S)
             (I ++ ts)).
Proof.
  intros Hz Hx Hy Hzx Hn. eexists.
  unfold V2.Quo. repeat call. reflexivity.
Qed.

Ltac quo_panics :=
  erewrite bind_panic by (eapply Int_Quo_zero; solve_access);
  repeat first [ reflexivity | lia | f_equal ].

Lemma V2_Quo_zero pz px py cz cx c d :
  S !! pz = Some cz -> S !! px = Some cx -> S !! py = Some (mkStein c d) ->
  c * c + d * d - c * d = 0 ->
  exists ts,
  V2.Quo (Ptr pz) (Ptr px) (Ptr py) (mkMem S I)
  = Panic DivisionByZero (mkMem (<[pz := mkStein 0 0]> S) (I ++ ts)).
Proof.
  intros Hz Hx Hy Hn. destruct cx as [a b].
  assert (c = 0 /\ d = 0) as [-> ->] by nia.
  alias_cases px pz; eexists; unfold V2.Quo; repeat call; quo_panics.
Qed.

Lemma V1_Quo_zero pz px py cz cx c d :
  S !! pz = Some cz -> S !! px = Some cx -> S !! py = Some (mkStein c d) ->
  c * c + d * d - c * d = 0 ->
  exists ts,
  V1.Quo (Ptr pz) (Ptr px) (Ptr py) (mkMem S I)
  = Panic DivisionByZero (mkMem (<[pz := mkStein 0 0]> S) (I ++ ts)).
Proof.
  intros Hz Hx Hy Hn. destruct cx as [a b].
  assert (c = 0 /\ d = 0) as [-> ->] by nia.
  alias_cases px pz; eexists; unfold V1.Quo; repeat call; quo_panics.
Qed.
End Quotients.

Ltac mem_eq := repeat first [ reflexivity | ring | f_equal ].

(** ** Multiplication *)

(** C2: with a receiver distinct from both operands, [Mul] leaves
    [ac - bd] and [ad + bc - bd] in the receiver, in both revisions; nothing
    else in the heap of structs changes. *)
Theorem Mul_fresh_receiver (m : mem) (pz px py : loc) (cz : Stein) (a b c d : Z) :
  steins m !! pz = Some cz ->
  steins m !! px = Some (mkStein a b) ->
  steins m !! py = Some (mkStein c d) ->
  pz <> px -> pz <> py ->
  (exists ts,
     V1.Mul (Ptr pz) (Ptr px) (Ptr py) m
     = Ok (Ptr pz)
         (mkMem (<[pz := mkStein (a * c - b * d) (a * d + b * c - b * d)]> (steins m))
                (ints m ++ ts)))
  /\
  (exists ts,
     V2.Mul (Ptr pz) (Ptr px) (Ptr py) m
     = Ok (Ptr pz)
         (mkMem (<[pz := mkStein (a * c - b * d) (a * d + b * c - b * d)]> (steins m))
                (ints m ++ ts))).
Proof.
  destruct m as [S I]; cbn [steins ints]. intros Hz Hx Hy Hzx Hzy. split; eexists.
  - erewrite V1_Mul_run by eassumption. mem_eq.
  - erewrite V2_Mul_run by eassumption. mem_eq.
Qed.

(** (1+1ω)·(1+1ω) = 0+1ω, the product stored in a third value. *)
Lemma Mul_fresh_receiver_witness :
  let m := mkMem [mkStein 1 1; mkStein 0 0] [] in
  (exists ts, V1.Mul (Ptr 1) (Ptr 0) (Ptr 0) m
              = Ok (Ptr 1) (mkMem [mkStein 1 1; mkStein 0 1] ts))
  /\
  (exists ts, V2.Mul (Ptr 1) (Ptr 0) (Ptr 0) m
              = Ok (Ptr 1) (mkMem [mkStein 1 1; mkStein 0 1] ts)).
Proof.
  intro m.
  apply (Mul_fresh_receiver m 1 0 0 (mkStein 0 0) 1 1 1 1); first [ reflexivity | lia ].
Defined.

(** C3, first revision: [Mul] reads its operands through pointers into [x]
    and [y] while it is already writing [z].  With [x = y = 1+1ω] the
    product is [0+1ω] when the receiver is a third value, and [0+0ω] when
    the receiver is [x], is [y], or is both. *)
Theorem V1_Mul_aliased_receiver :
  let one_one := mkStein 1 1 in
  final_steins (V1.Mul (Ptr 2) (Ptr 0) (Ptr 1) (mkMem [one_one; one_one; mkStein 0 0] []))
  = Some [one_one; one_one; mkStein 0 1]
  /\ final_steins (V1.Mul (Ptr 0) (Ptr 0) (Ptr 1) (mkMem [one_one; one_one] []))
     = Some [mkStein 0 0; one_one]
  /\ final_steins (V1.Mul (Ptr 1) (Ptr 0) (Ptr 1) (mkMem [one_one; one_one] []))
     = Some [one_one; mkStein 0 0]
  /\ final_steins (V1.Mul (Ptr 0) (Ptr 0) (Ptr 0) (mkMem [one_one] []))
     = Some [mkStein 0 0].
Proof. repeat split; vm_compute; reflexivity. Qed.

(** The second revision copies the operands first: its [Mul] leaves the
    product in the receiver whatever the receiver is. *)
Lemma V2_Mul_any_receiver (m : mem) (pz px py : loc) (cz x y : Stein) :
  steins m !! pz = Some cz ->
  steins m !! px = Some x ->
  steins m !! py = Some y ->
  exists ts,
    V2.Mul (Ptr pz) (Ptr px) (Ptr py) m
    = Ok (Ptr pz) (mkMem (<[pz := Spec.multiply x y]> (steins m)) (ints m ++ ts)).
Proof.
  destruct m as [S I], x as [a b], y as [c d]; cbn [steins ints]. intros Hz Hx Hy.
  eexists. erewrite V2_Mul_run by eassumption. unfold Spec.multiply. cbn [l r]. mem_eq.
Qed.

(** ** Quadrance *)

Lemma quadrance_positive (a b : Z) : a <> 0 \/ b <> 0 -> 0 < a * a + b * b - a * b.
Proof. intros H. nia. Qed.

Lemma quadrance_zero (a b : Z) : a * a + b * b - a * b = 0 <-> a = 0 /\ b = 0.
Proof. split; [intros H; split; nia | intros [-> ->]; reflexivity]. Qed.

(** C6: in both revisions [Quad] returns an integer holding
    [a² + b² - ab]; that number is positive unless the value is [0+0ω], and
    is zero exactly there. *)
Theorem Quad_formula_positive (m : mem) (pz : loc) (a b : Z) :
  steins m !! pz = Some (mkStein a b) ->
  (exists q m', V1.Quad (Ptr pz) m = Ok q m' /\ load q m' = Ok (a * a + b * b - a * b) m')
  /\ (exists q m', V2.Quad (Ptr pz) m = Ok q m' /\ load q m' = Ok (a * a + b * b - a * b) m')
  /\ (mkStein a b <> mkStein 0 0 -> 0 < a * a + b * b - a * b)
  /\ (a * a + b * b - a * b = 0 <-> mkStein a b = mkStein 0 0).
Proof.
  destruct m as [S I]; cbn [steins]. intros Hz. repeat split.
  - do 2 eexists. split; [apply V1_Quad_run, Hz | solve_access].
  - do 2 eexists. split; [apply V2_Quad_run, Hz | solve_access].
  - intros Hne. apply quadrance_positive.
    destruct (Z.eq_dec a 0) as [->|]; [right | left; assumption].
    intros ->. now apply Hne.
  - intros H. apply quadrance_zero in H as [-> ->]. reflexivity.
  - intros H. injection H as -> ->. reflexivity.
Qed.

(** quadrance(1+1ω) = 1 + 1 - 1 = 1. *)
Lemma Quad_formula_positive_witness :
  let m := mkMem [mkStein 1 1] [] in
  steins m !! 0%nat = Some (mkStein 1 1)
  /\ (exists q m', V1.Quad (Ptr 0) m = Ok q m' /\ load q m' = Ok 1 m')
  /\ (exists q m', V2.Quad (Ptr 0) m = Ok q m' /\ load q m' = Ok 1 m')
  /\ (mkStein 1 1 <> mkStein 0 0 -> 0 < 1)
  /\ (1 = 0 <-> mkStein 1 1 = mkStein 0 0).
Proof.
  intro m. split; [reflexivity |].
  apply (Quad_formula_positive m 0 1 1). reflexivity.
Defined.

(** C10: [Quad] only reads its receiver.  It returns the address of an
    integer that was not allocated before the call; every struct, and every
    integer that existed before, is left as it was. *)
Theorem Quad_observer (m : mem) (pz : loc) (cz : Stein) :
  steins m !! pz = Some cz ->
  ints m !! length (ints m) = None
  /\ (exists ts, V1.Quad (Ptr pz) m
                 = Ok (Temp (length (ints m))) (mkMem (steins m) (ints m ++ ts)))
  /\ (exists ts, V2.Quad (Ptr pz) m
                 = Ok (Temp (length (ints m))) (mkMem (steins m) (ints m ++ ts))).
Proof.
  destruct m as [S I], cz as [a b]; cbn [steins ints]. intros Hz. repeat split.
  - apply lookup_ge_None. lia.
  - eexists. apply V1_Quad_run, Hz.
  - eexists. apply V2_Quad_run, Hz.
Qed.

Lemma Quad_observer_witness :
  let m := mkMem [mkStein 2 3] [5] in
  steins m !! 0%nat = Some (mkStein 2 3)
  /\ ints m !! 1%nat = None
  /\ (exists ts, V1.Quad (Ptr 0) m = Ok (Temp 1) (mkMem [mkStein 2 3] (5 :: ts)))
  /\ (exists ts, V2.Quad (Ptr 0) m = Ok (Temp 1) (mkMem [mkStein 2 3] (5 :: ts))).
Proof.
  intro m. split; [reflexivity |].
  apply (Quad_observer m 0 (mkStein 2 3)). reflexivity.
Defined.

(** C7: second revision.  If [Quad] returns [nx] for [x] and [ny] for [y],
    then after [z.Mul(x, y)], whatever [z] is, [Quad] returns [nx * ny] for
    [z]. *)
Theorem Quad_multiplicative (m : mem) (pz px py : loc) (cz cx cy : Stein)
    (qx qy : iref) (mx my : mem) (nx ny : Z) :
  steins m !! pz = Some cz ->
  steins m !! px = Some cx ->
  steins m !! py = Some cy ->
  V2.Quad (Ptr px) m = Ok qx mx -> load qx mx = Ok nx mx ->
  V2.Quad (Ptr py) m = Ok qy my -> load qy my = Ok ny my ->
  exists m1 q m2,
    V2.Mul (Ptr pz) (Ptr px) (Ptr py) m = Ok (Ptr pz) m1
    /\ V2.Quad (Ptr pz) m1 = Ok q m2
    /\ load q m2 = Ok (nx * ny) m2.
Proof.
  destruct m as [S I], cx as [a b], cy as [c d]; cbn [steins].
  intros Hz Hx Hy Hqx Hnx Hqy Hny.
  rewrite (V2_Quad_run _ _ _ _ _ Hx) in Hqx. injection Hqx as <- <-.
  rewrite (V2_Quad_run _ _ _ _ _ Hy) in Hqy. injection Hqy as <- <-.
  erewrite load_Temp in Hnx by solve_lookup. injection Hnx as <-.
  erewrite load_Temp in Hny by solve_lookup. injection Hny as <-.
  do 3 eexists. split; [eapply V2_Mul_run; eassumption |].
  split; [eapply V2_Quad_run; solve_lookup |].
  erewrite load_Temp by (norm_mem; solve_lookup). mem_eq.
Qed.

(** x = 2+3ω has quadrance 7, y = 1+2ω has quadrance 3, x·y has 21. *)
Lemma Quad_multiplicative_witness :
  let m := mkMem [mkStein 2 3; mkStein 1 2; mkStein 0 0] [] in
  exists m1 q m2,
    V2.Mul (Ptr 2) (Ptr 0) (Ptr 1) m = Ok (Ptr 2) m1
    /\ V2.Quad (Ptr 2) m1 = Ok q m2
    /\ load q m2 = Ok (7 * 3) m2.
Proof.
  intro m.
  eapply (Quad_multiplicative m 2 0 1 (mkStein 0 0) (mkStein 2 3) (mkStein 1 2));
    reflexivity.
Defined.

(** ** Truncated division *)

(** C4: second revision, receiver distinct from both operands, divisor of
    nonzero quadrance.  [Quo] leaves in the receiver the components of
    [x·conjugate(y)], each divided by [quadrance(y)] with [Z.quot], the
    division that rounds toward zero. *)
Theorem Quo_truncated_quotient (m : mem) (pz px py : loc) (cz x y : Stein) :
  steins m !! pz = Some cz ->
  steins m !! px = Some x ->
  steins m !! py = Some y ->
  pz <> px -> pz <> py ->
  Spec.quadrance y <> 0 ->
  exists ts,
    V2.Quo (Ptr pz) (Ptr px) (Ptr py) m
    = Ok (Ptr pz) (mkMem (<[pz := Spec.quotient x y]> (steins m)) (ints m ++ ts)).
Proof.
  destruct m as [S I], x as [a b], y as [c d]; cbn [steins ints].
  unfold Spec.quotient, Spec.quadrance, Spec.multiply, Spec.conjugate; cbn [l r].
  intros Hz Hx Hy Hzx _ Hn.
  destruct (V2_Quo_run S I pz px py cz a b c d Hz Hx Hy Hzx Hn) as [ts ->].
  exists ts. mem_eq.
Qed.

(** (1+0ω)/(1+1ω) = 0-1ω; (4+0ω)/(2+0ω) = 2+0ω; and (-3+5ω)/(2+0ω) = -1+2ω:
    -6/4 and 10/4 are both cut toward zero. *)
Lemma Quo_truncated_quotient_witness :
  (let m := mkMem [mkStein 1 0; mkStein 1 1; mkStein 0 0] [] in
   Spec.quadrance (mkStein 1 1) <> 0
   /\ exists ts, V2.Quo (Ptr 2) (Ptr 0) (Ptr 1) m
                 = Ok (Ptr 2) (mkMem [mkStein 1 0; mkStein 1 1; mkStein 0 (-1)] ts))
  /\
  (let m := mkMem [mkStein 4 0; mkStein 2 0; mkStein 0 0] [] in
   exists ts, V2.Quo (Ptr 2) (Ptr 0) (Ptr 1) m
              = Ok (Ptr 2) (mkMem [mkStein 4 0; mkStein 2 0; mkStein 2 0] ts))
  /\
  (let m := mkMem [mkStein (-3) 5; mkStein 2 0; mkStein 0 0] [] in
   exists ts, V2.Quo (Ptr 2) (Ptr 0) (Ptr 1) m
              = Ok (Ptr 2) (mkMem [mkStein (-3) 5; mkStein 2 0; mkStein (-1) 2] ts)).
Proof.
  split; [| split]; intro m.
  - split; [vm_compute; lia |].
    apply (Quo_truncated_quotient m 2 0 1 (mkStein 0 0) (mkStein 1 0) (mkStein 1 1));
      first [ reflexivity | lia | vm_compute; lia ].
  - apply (Quo_truncated_quotient m 2 0 1 (mkStein 0 0) (mkStein 4 0) (mkStein 2 0));
      first [ reflexivity | lia | vm_compute; lia ].
  - apply (Quo_truncated_quotient m 2 0 1 (mkStein 0 0) (mkStein (-3) 5) (mkStein 2 0));
      first [ reflexivity | lia | vm_compute; lia ].
Defined.

(** The same holds when the receiver is the divisor [y]: [Quad(y)] is taken
    before [y] is overwritten. *)
Lemma V2_Quo_receiver_is_divisor (m : mem) (px py : loc) (x y : Stein) :
  steins m !! px = Some x ->
  steins m !! py = Some y ->
  py <> px ->
  Spec.quadrance y <> 0 ->
  exists ts,
    V2.Quo (Ptr py) (Ptr px) (Ptr py) m
    = Ok (Ptr py) (mkMem (<[py := Spec.quotient x y]> (steins m)) (ints m ++ ts)).
Proof.
  destruct m as [S I], x as [a b], y as [c d]; cbn [steins ints].
  unfold Spec.quotient, Spec.quadrance, Spec.multiply, Spec.conjugate; cbn [l r].
  intros Hx Hy Hyx Hn.
  destruct (V2_Quo_run S I py px py _ a b c d Hy Hx Hy Hyx Hn) as [ts ->].
  exists ts. mem_eq.
Qed.

(** C5: [Quo] writes [conjugate(y)] into the receiver before it reads [x].
    With [x = 4+0ω] and [y = 2+0ω], a call with a third value as receiver
    leaves [2+0ω] there; the call [x.Quo(x, y)] leaves [1+0ω] in [x], in
    both revisions. *)
Theorem Quo_receiver_is_dividend :
  let x := mkStein 4 0 in
  let y := mkStein 2 0 in
  final_steins (V2.Quo (Ptr 2) (Ptr 0) (Ptr 1) (mkMem [x; y; mkStein 0 0] []))
  = Some [x; y; mkStein 2 0]
  /\ final_steins (V2.Quo (Ptr 0) (Ptr 0) (Ptr 1) (mkMem [x; y] []))
     = Some [mkStein 1 0; y]
  /\ final_steins (V1.Quo (Ptr 0) (Ptr 0) (Ptr 1) (mkMem [x; y] []))
     = Some [mkStein 1 0; y].
Proof. repeat split; vm_compute; reflexivity. Qed.

(** What [x.Quo(x, y)] computes in the second revision: [x] is lost, the
    result is [conjugate(y)·conjugate(y)] divided by [quadrance(y)]. *)
Lemma V2_Quo_receiver_is_dividend_run (m : mem) (px py : loc) (x y : Stein) :
  steins m !! px = Some x ->
  steins m !! py = Some y ->
  px <> py ->
  Spec.quadrance y <> 0 ->
  exists ts,
    V2.Quo (Ptr px) (Ptr px) (Ptr py) m
    = Ok (Ptr px)
        (mkMem (<[px := Spec.quotient (Spec.conjugate y) y]> (steins m)) (ints m ++ ts)).
Proof.
  destruct m as [S I], x as [a b], y as [c d]; cbn [steins ints].
  unfold Spec.quotient, Spec.quadrance, Spec.multiply, Spec.conjugate; cbn [l r].
  intros Hx Hy Hxy Hn. eexists. unfold V2.Quo. repeat call. unfold ret. mem_eq.
Qed.

(** In the first revision [Quo] calls [z.Mul(x, z)], so the defect of
    [V1.Mul] shows even with a fresh receiver: (1+1ω)/(1+0ω) comes out as
    [1+0ω]. *)
Lemma V1_Quo_fresh_receiver :
  final_steins (V1.Quo (Ptr 2) (Ptr 0) (Ptr 1)
                  (mkMem [mkStein 1 1; mkStein 1 0; mkStein 0 0] []))
  = Some [mkStein 1 1; mkStein 1 0; mkStein 1 0].
Proof. vm_compute. reflexivity. Qed.

(** ** Division by the zero value *)

(** C1 as stated fails.  With [x = 4+0ω], [y = 0+0ω] and [z = 7+7ω], in
    both revisions: the statements before the first component division all
    run and overwrite [z] with [0+0ω]; the division is then attempted with
    divisor [0], and the panic of [Quo] is the one [big.Int.Quo] raises
    there.  Nothing rejects the divisor beforehand. *)
Lemma Quo_zero_divisor_no_guard :
  let m0 := mkMem [mkStein 4 0; mkStein 0 0; mkStein 7 7] [] in
  let s1 := [mkStein 4 0; mkStein 0 0; mkStein 0 0] in
  (exists n zl quad m1,
      V1_Quo_before_division (Ptr 2) (Ptr 0) (Ptr 1) m0 = Ok (n, zl, quad) m1
      /\ steins m1 = s1
      /\ load quad m1 = Ok 0 m1
      /\ Int.Quo n zl quad m1 = Panic DivisionByZero m1
      /\ V1.Quo (Ptr 2) (Ptr 0) (Ptr 1) m0 = Panic DivisionByZero m1)
  /\
  (exists zl zl' quad m1,
      V2_Quo_before_division (Ptr 2) (Ptr 0) (Ptr 1) m0 = Ok (zl, zl', quad) m1
      /\ steins m1 = s1
      /\ load quad m1 = Ok 0 m1
      /\ Int.Quo zl zl' quad m1 = Panic DivisionByZero m1
      /\ V2.Quo (Ptr 2) (Ptr 0) (Ptr 1) m0 = Panic DivisionByZero m1).
Proof.
  split; do 4 eexists; (split; [vm_compute; reflexivity |]);
    repeat split; vm_compute; reflexivity.
Qed.

(** C1, amended: a divisor of zero quadrance is not checked for.  In both
    revisions, and whatever the receiver is, [Quo] first overwrites the
    receiver (it ends up holding [0+0ω]) and then stops with the
    division-by-zero panic of the first component division. *)
Theorem Quo_zero_divisor_division_panic (m : mem) (pz px py : loc) (cz x y : Stein) :
  steins m !! pz = Some cz ->
  steins m !! px = Some x ->
  steins m !! py = Some y ->
  Spec.quadrance y = 0 ->
  (exists ts, V1.Quo (Ptr pz) (Ptr px) (Ptr py) m
              = Panic DivisionByZero (mkMem (<[pz := mkStein 0 0]> (steins m)) (ints m ++ ts)))
  /\
  (exists ts, V2.Quo (Ptr pz) (Ptr px) (Ptr py) m
              = Panic DivisionByZero (mkMem (<[pz := mkStein 0 0]> (steins m)) (ints m ++ ts))).
Proof.
  destruct m as [S I], y as [c d]; cbn [steins ints].
  unfold Spec.quadrance; cbn [l r]. intros Hz Hx Hy Hn. split.
  - eapply V1_Quo_zero; eassumption.
  - eapply V2_Quo_zero; eassumption.
Qed.

Lemma Quo_zero_divisor_division_panic_witness :
  let m := mkMem [mkStein 4 0; mkStein 0 0; mkStein 7 7] [] in
  Spec.quadrance (mkStein 0 0) = 0
  /\ (exists ts, V1.Quo (Ptr 2) (Ptr 0) (Ptr 1) m
                 = Panic DivisionByZero (mkMem [mkStein 4 0; mkStein 0 0; mkStein 0 0] ts))
  /\ (exists ts, V2.Quo (Ptr 2) (Ptr 0) (Ptr 1) m
                 = Panic DivisionByZero (mkMem [mkStein 4 0; mkStein 0 0; mkStein 0 0] ts)).
Proof.
  intro m. split; [reflexivity |].
  apply (Quo_zero_divisor_division_panic m 2 0 1 (mkStein 7 7) (mkStein 4 0) (mkStein 0 0));
    reflexivity.
Defined.

(** ** Associates *)

(** In the second revision the first statement of [Associates] calls
    [Copy] on a nil result pointer. *)
Lemma V2_Associates_panics (z : ptr) (m : mem) :
  V2.Associates z m = Panic NilDereference m.
Proof. reflexivity. Qed.

(** C8: [Associates] of [1+0ω].  The first revision returns
    [1, -1, ω, -ω, -1-2ω, 1+2ω]: its [ω.Mul(ω, ω)] squares [-ω] in place and
    gets [-1-2ω] instead of [ω² = -1-ω].  The second revision returns
    nothing: it panics on a nil pointer, for every argument. *)
Theorem Associates_results :
  six_values (V1.Associates (Ptr 0) (mkMem [mkStein 1 0] []))
  = Some [mkStein 1 0; mkStein (-1) 0; mkStein 0 1; mkStein 0 (-1);
          mkStein (-1) (-2); mkStein 1 2]
  /\ final_steins (V1.Mul (Ptr 1) (Ptr 0) (Ptr 0) (mkMem [mkStein 0 (-1); mkStein 0 0] []))
     = Some [mkStein 0 (-1); mkStein (-1) (-1)]
  /\ final_steins (V1.Mul (Ptr 0) (Ptr 0) (Ptr 0) (mkMem [mkStein 0 (-1)] []))
     = Some [mkStein (-1) (-2)]
  /\ forall z m, V2.Associates z m = Panic NilDereference m.
Proof.
  repeat split; try (vm_compute; reflexivity).
Qed.

(** C9 as stated fails in both revisions: the first returns other values
    in the fifth and sixth place, the second returns none. *)
Lemma Associates_of_one_claimed :
  let claimed := [mkStein 1 0; mkStein (-1) 0; mkStein 0 1; mkStein 0 (-1);
                  mkStein (-1) 1; mkStein 1 (-1)] in
  six_values (V1.Associates (Ptr 0) (mkMem [mkStein 1 0] [])) <> Some claimed
  /\ six_values (V2.Associates (Ptr 0) (mkMem [mkStein 1 0] [])) <> Some claimed.
Proof. split; vm_compute; discriminate. Qed.

(** C9, amended: the first revision returns six values for [1+0ω]; the
    first four are [1+0ω, -1+0ω, 0+1ω, 0-1ω].  The products of [1+0ω] with
    [ω² = -1-ω] and with [-ω² = 1+ω], formed by [Mul] in a fresh receiver,
    are [-1-1ω] and [1+1ω] in both revisions. *)
Theorem Associates_of_one :
  (exists e f,
      six_values (V1.Associates (Ptr 0) (mkMem [mkStein 1 0] []))
      = Some [mkStein 1 0; mkStein (-1) 0; mkStein 0 1; mkStein 0 (-1); e; f])
  /\ (let m := mkMem [mkStein 1 0; mkStein (-1) (-1); mkStein 1 1; mkStein 0 0] [] in
      final_steins (V1.Mul (Ptr 3) (Ptr 0) (Ptr 1) m)
      = Some [mkStein 1 0; mkStein (-1) (-1); mkStein 1 1; mkStein (-1) (-1)]
      /\ final_steins (V1.Mul (Ptr 3) (Ptr 0) (Ptr 2) m)
         = Some [mkStein 1 0; mkStein (-1) (-1); mkStein 1 1; mkStein 1 1]
      /\ final_steins (V2.Mul (Ptr 3) (Ptr 0) (Ptr 1) m)
         = Some [mkStein 1 0; mkStein (-1) (-1); mkStein 1 1; mkStein (-1) (-1)]
      /\ final_steins (V2.Mul (Ptr 3) (Ptr 0) (Ptr 2) m)
         = Some [mkStein 1 0; mkStein (-1) (-1); mkStein 1 1; mkStein 1 1]).
Proof.
  split; [do 2 eexists; vm_compute; reflexivity |].
  repeat split; vm_compute; reflexivity.
Qed.

(** ** The linear operations, comparison and construction *)

Lemma Int_Cmp_ok (x y : iref) (m : mem) (vx vy : Z) :
  load x m = Ok vx m -> load y m = Ok vy m ->
  Int.Cmp x y m = Ok (match vx ?= vy with Lt => -1 | Eq => 0 | Gt => 1 end) m.
Proof.
  intros Hx Hy. unfold Int.Cmp.
  rewrite (bind_ok _ _ _ _ _ Hx), (bind_ok _ _ _ _ _ Hy). reflexivity.
Qed.

Lemma Cmp_zero (a c : Z) :
  negb (match a ?= c with Lt => -1 | Eq => 0 | Gt => 1 end =? 0) = negb (a =? c).
Proof.
  destruct (Z.compare_spec a c) as [->|H|H]; cbn.
  - now rewrite Z.eqb_refl.
  - destruct (Z.eqb_spec a c); [lia | reflexivity].
  - destruct (Z.eqb_spec a c); [lia | reflexivity].
Qed.

Section LinearRuns.
Variables (S : list Stein) (I : list Z).

Lemma V1_Equals_run pz py a b c d :
  S !! pz = Some (mkStein a b) -> S !! py = Some (mkStein c d) ->
  V1.Equals (Ptr pz) (Ptr py) (mkMem S I) = Ok ((a =? c) && (b =? d))%bool (mkMem S I).
Proof.
  intros Hz Hy. unfold V1.Equals. do 2 step.
  erewrite bind_ok by (eapply Int_Cmp_ok; solve_access). cbn [l r].
  rewrite Cmp_zero. destruct (a =? c); [| reflexivity]. cbn [negb andb]. do 2 step.
  erewrite bind_ok by (eapply Int_Cmp_ok; solve_access). cbn [l r].
  rewrite Cmp_zero. destruct (b =? d); reflexivity.
Qed.

Lemma V2_Equals_run pz py a b c d :
  S !! pz = Some (mkStein a b) -> S !! py = Some (mkStein c d) ->
  V2.Equals (Ptr pz) (Ptr py) (mkMem S I) = Ok ((a =? c) && (b =? d))%bool (mkMem S I).
Proof.
  intros Hz Hy. unfold V2.Equals. do 2 step.
  erewrite bind_ok by (eapply Int_Cmp_ok; solve_access). cbn [l r].
  rewrite Cmp_zero. destruct (a =? c); [| reflexivity]. cbn [negb andb]. do 2 step.
  erewrite bind_ok by (eapply Int_Cmp_ok; solve_access). cbn [l r].
  rewrite Cmp_zero. destruct (b =? d); reflexivity.
Qed.

Lemma V1_Add_run pz px py cz a b c d :
  S !! pz = Some cz -> S !! px = Some (mkStein a b) -> S !! py = Some (mkStein c d) ->
  V1.Add (Ptr pz) (Ptr px) (Ptr py) (mkMem S I)
  = Ok (Ptr pz) (mkMem (<[pz := mkStein (a + c) (b + d)]> S) (I ++ [a + c; b + d])).
Proof.
  intros Hz Hx Hy.
  alias_cases px pz; alias_cases py pz; unfold V1.Add; run; reflexivity.
Qed.

Lemma V2_Add_run pz px py cz a b c d :
  S !! pz = Some cz -> S !! px = Some (mkStein a b) -> S !! py = Some (mkStein c d) ->
  V2.Add (Ptr pz) (Ptr px) (Ptr py) (mkMem S I)
  = Ok (Ptr pz) (mkMem (<[pz := mkStein (a + c) (b + d)]> S) I).
Proof.
  intros Hz Hx Hy.
  alias_cases px pz; alias_cases py pz; unfold V2.Add; run; reflexivity.
Qed.

Lemma V1_Sub_run pz px py cz a b c d :
  S !! pz = Some cz -> S !! px = Some (mkStein a b) -> S !! py = Some (mkStein c d) ->
  V1.Sub (Ptr pz) (Ptr px) (Ptr py) (mkMem S I)
  = Ok (Ptr pz) (mkMem (<[pz := mkStein (a - c) (b - d)]> S) (I ++ [a - c; b - d])).
Proof.
  intros Hz Hx Hy.
  alias_cases px pz; alias_cases py pz; unfold V1.Sub; run; reflexivity.
Qed.

Lemma V2_Sub_run pz px py cz a b c d :
  S !! pz = Some cz -> S !! px = Some (mkStein a b) -> S !! py = Some (mkStein c d) ->
  V2.Sub (Ptr pz) (Ptr px) (Ptr py) (mkMem S I)
  = Ok (Ptr pz) (mkMem (<[pz := mkStein (a - c) (b - d)]> S) I).
Proof.
  intros Hz Hx Hy.
  alias_cases px pz; alias_cases py pz; unfold V2.Sub; run; reflexivity.
Qed.

Lemma V1_Neg_run pz py cz c d :
  S !! pz = Some cz -> S !! py = Some (mkStein c d) ->
  V1.Neg (Ptr pz) (Ptr py) (mkMem S I)
  = Ok (Ptr pz) (mkMem (<[pz := mkStein (- c) (- d)]> S) (I ++ [- c; - d])).
Proof. intros Hz Hy. alias_cases py pz; unfold V1.Neg; run; reflexivity. Qed.

Lemma V2_Neg_run pz py cz c d :
  S !! pz = Some cz -> S !! py = Some (mkStein c d) ->
  V2.Neg (Ptr pz) (Ptr py) (mkMem S I)
  = Ok (Ptr pz) (mkMem (<[pz := mkStein (- c) (- d)]> S) I).
Proof. intros Hz Hy. alias_cases py pz; unfold V2.Neg; run; reflexivity. Qed.


Lemma V2_Copy_run pz py cz c d :
  S !! pz = Some cz -> S !! py = Some (mkStein c d) ->
  V2.Copy (Ptr pz) (Ptr py) (mkMem S I)
  = Ok (Ptr pz) (mkMem (<[pz := mkStein c d]> S) I).
Proof. intros Hz Hy. alias_cases py pz; unfold V2.Copy; run; reflexivity. Qed.

(** [Scal] by a free-standing integer. *)
Lemma V1_Scal_run pz py n cz c d k :
  S !! pz = Some cz -> S !! py = Some (mkStein c d) -> I !! n = Some k ->
  V1.Scal (Ptr pz) (Ptr py) (Temp n) (mkMem S I)
  = Ok (Ptr pz) (mkMem (<[pz := mkStein (c * k) (d * k)]> S) (I ++ [c * k; d * k])).
Proof.
  intros Hz Hy Hn. alias_cases py pz; unfold V1.Scal; run; reflexivity.
Qed.

Lemma V2_Scal_run pz py n cz c d k :
  S !! pz = Some cz -> S !! py = Some (mkStein c d) -> I !! n = Some k ->
  V2.Scal (Ptr pz) (Ptr py) (Temp n) (mkMem S I)
  = Ok (Ptr pz) (mkMem (<[pz := mkStein (c * k) (d * k)]> S) I).
Proof.
  intros Hz Hy Hn. alias_cases py pz; unfold V2.Scal; run; reflexivity.
Qed.

(** [Scal] by the component of a struct. *)
Lemma load_field_inv (a : iref) (k : Z) (m' : mem) :
  load a (mkMem S I) = Ok k m' ->
  match a with
  | FieldL p => exists c, S !! p = Some c /\ l c = k
  | FieldR p => exists c, S !! p = Some c /\ r c = k
  | Temp n => I !! n = Some k
  end.
Proof.
  unfold load; cbn [steins ints]. destruct a as [p|p|n].
  - destruct (S !! p) as [c|]; [| discriminate]. intros H; injection H as <- _. eauto.
  - destruct (S !! p) as [c|]; [| discriminate]. intros H; injection H as <- _. eauto.
  - destruct (I !! n) as [v|]; [| discriminate]. intros H; injection H as <- _. eauto.
Qed.

Lemma V1_Scal_field pz py a cz c d k :
  S !! pz = Some cz -> S !! py = Some (mkStein c d) ->
  load a (mkMem S I) = Ok k (mkMem S I) ->
  a <> FieldL pz ->
  V1.Scal (Ptr pz) (Ptr py) a (mkMem S I)
  = Ok (Ptr pz) (mkMem (<[pz := mkStein (c * k) (d * k)]> S) (I ++ [c * k; d * k])).
Proof.
  intros Hz Hy Ha Hne. apply load_field_inv in Ha.
  destruct a as [p|p|n].
  - destruct Ha as [[a1 a2] [Hp <-]]. assert (p <> pz) by congruence.
    destruct (decide (py = pz)), (decide (py = p)); simplify_eq;
      unfold V1.Scal; run; reflexivity.
  - destruct Ha as [[a1 a2] [Hp <-]].
    destruct (decide (py = pz)), (decide (p = pz)), (decide (py = p)); simplify_eq;
      unfold V1.Scal; run; reflexivity.
  - eapply V1_Scal_run; eassumption.
Qed.

Lemma V2_Scal_field pz py a cz c d k :
  S !! pz = Some cz -> S !! py = Some (mkStein c d) ->
  load a (mkMem S I) = Ok k (mkMem S I) ->
  a <> FieldL pz ->
  V2.Scal (Ptr pz) (Ptr py) a (mkMem S I)
  = Ok (Ptr pz) (mkMem (<[pz := mkStein (c * k) (d * k)]> S) I).
Proof.
  intros Hz Hy Ha Hne. apply load_field_inv in Ha.
  destruct a as [p|p|n].
  - destruct Ha as [[a1 a2] [Hp <-]]. assert (p <> pz) by congruence.
    destruct (decide (py = pz)), (decide (py = p)); simplify_eq;
      unfold V2.Scal; run; reflexivity.
  - destruct Ha as [[a1 a2] [Hp <-]].
    destruct (decide (py = pz)), (decide (p = pz)), (decide (py = p)); simplify_eq;
      unfold V2.Scal; run; reflexivity.
  - eapply V2_Scal_run; eassumption.
Qed.
End LinearRuns.

(** [tcall] runs the first statement of a [bind] chain of second-revision
    method calls. *)
Ltac tcall :=
  match goal with
  | |- bind ?c ?k ?m = _ =>
      erewrite (bind_ok c k m)
        by first
             [ solve_prim
             | eapply V2_Add_run; solve_lookup
             | eapply V2_Sub_run; solve_lookup
             | eapply V2_Neg_run; solve_lookup
             | eapply V2_Conj_run; solve_lookup
             | eapply V2_Copy_run; solve_lookup
             | eapply V2_Scal_run; solve_lookup
             | eapply V2_Mul_run; solve_lookup
             | eapply V2_Quad_run; solve_lookup ];
      norm_mem
  end.

Ltac eqb_true :=
  repeat match goal with
         | |- (_ && _)%bool = true => apply andb_true_intro; split
         | |- (_ =? _) = true => apply Z.eqb_eq; ring
         end.

(** A test function returns [true] and leaves the structs it was given
    where they were. *)
Ltac test_holds :=
  do 2 eexists; split;
  [ repeat tcall; erewrite V2_Equals_run by solve_lookup; f_equal; eqb_true
  | cbn [steins]; reflexivity ].

Lemma Int_Sign_ok (x : iref) (m : mem) (vx : Z) :
  load x m = Ok vx m -> Int.Sign x m = Ok (Z.sgn vx) m.
Proof. intros Hx. unfold Int.Sign. rewrite (bind_ok _ _ _ _ _ Hx). reflexivity. Qed.

(** *** Receivers that are also operands *)

(** X1. [Add] and [Sub] leave the componentwise sum and difference in the
    receiver, whether or not the receiver is one of the operands; no other
    struct changes. *)
Theorem Add_Sub_any_receiver (m : mem) (pz px py : loc) (cz x y : Stein) :
  steins m !! pz = Some cz ->
  steins m !! px = Some x ->
  steins m !! py = Some y ->
  (exists ts,
      V1.Add (Ptr pz) (Ptr px) (Ptr py) m
      = Ok (Ptr pz) (mkMem (<[pz := mkStein (l x + l y) (r x + r y)]> (steins m))
                           (ints m ++ ts)))
  /\ V2.Add (Ptr pz) (Ptr px) (Ptr py) m
     = Ok (Ptr pz) (mkMem (<[pz := mkStein (l x + l y) (r x + r y)]> (steins m)) (ints m))
  /\ (exists ts,
      V1.Sub (Ptr pz) (Ptr px) (Ptr py) m
      = Ok (Ptr pz) (mkMem (<[pz := mkStein (l x - l y) (r x - r y)]> (steins m))
                           (ints m ++ ts)))
  /\ V2.Sub (Ptr pz) (Ptr px) (Ptr py) m
     = Ok (Ptr pz) (mkMem (<[pz := mkStein (l x - l y) (r x - r y)]> (steins m)) (ints m)).
Proof.
  destruct m as [S I], x as [a b], y as [c d]; cbn [steins ints l r]. intros Hz Hx Hy.
  split; [eexists; eapply V1_Add_run; eassumption |].
  split; [eapply V2_Add_run; eassumption |].
  split; [eexists; eapply V1_Sub_run; eassumption |].
  eapply V2_Sub_run; eassumption.
Qed.

(** With x = 5+1ω and y = 2+3ω: y.Add(x, y) leaves 7+4ω in y, y.Sub(x, y)
    leaves 3-2ω. *)
Lemma Add_Sub_any_receiver_witness :
  let m := mkMem [mkStein 5 1; mkStein 2 3] [] in
  (exists ts, V1.Add (Ptr 1) (Ptr 0) (Ptr 1) m
              = Ok (Ptr 1) (mkMem [mkStein 5 1; mkStein 7 4] ts))
  /\ V2.Add (Ptr 1) (Ptr 0) (Ptr 1) m
     = Ok (Ptr 1) (mkMem [mkStein 5 1; mkStein 7 4] [])
  /\ (exists ts, V1.Sub (Ptr 1) (Ptr 0) (Ptr 1) m
              = Ok (Ptr 1) (mkMem [mkStein 5 1; mkStein 3 (-2)] ts))
  /\ V2.Sub (Ptr 1) (Ptr 0) (Ptr 1) m
     = Ok (Ptr 1) (mkMem [mkStein 5 1; mkStein 3 (-2)] []).
Proof.
  intro m.
  apply (Add_Sub_any_receiver m 1 0 1 (mkStein 2 3) (mkStein 5 1) (mkStein 2 3)); reflexivity.
Defined.

(** X2. [Neg] and [Conj] need no copy of their operand: called with the
    receiver as operand they still leave [-a-bω] and [(a-b)-bω]. *)
Theorem Neg_Conj_any_receiver (m : mem) (pz py : loc) (cz y : Stein) :
  steins m !! pz = Some cz ->
  steins m !! py = Some y ->
  (exists ts,
      V1.Neg (Ptr pz) (Ptr py) m
      = Ok (Ptr pz) (mkMem (<[pz := mkStein (- l y) (- r y)]> (steins m)) (ints m ++ ts)))
  /\ V2.Neg (Ptr pz) (Ptr py) m
     = Ok (Ptr pz) (mkMem (<[pz := mkStein (- l y) (- r y)]> (steins m)) (ints m))
  /\ (exists ts,
      V1.Conj (Ptr pz) (Ptr py) m
      = Ok (Ptr pz) (mkMem (<[pz := mkStein (l y - r y) (- r y)]> (steins m)) (ints m ++ ts)))
  /\ V2.Conj (Ptr pz) (Ptr py) m
     = Ok (Ptr pz) (mkMem (<[pz := mkStein (l y - r y) (- r y)]> (steins m)) (ints m)).
Proof.
  destruct m as [S I], y as [c d]; cbn [steins ints l r]. intros Hz Hy.
  split; [eexists; eapply V1_Neg_run; eassumption |].
  split; [eapply V2_Neg_run; eassumption |].
  split; [eexists; eapply V1_Conj_run; eassumption |].
  eapply V2_Conj_run; eassumption.
Qed.

(** In place on 5+2ω: the negative is -5-2ω, the conjugate 3-2ω. *)
Lemma Neg_Conj_any_receiver_witness :
  let m := mkMem [mkStein 5 2] [] in
  (exists ts, V1.Neg (Ptr 0) (Ptr 0) m = Ok (Ptr 0) (mkMem [mkStein (-5) (-2)] ts))
  /\ V2.Neg (Ptr 0) (Ptr 0) m = Ok (Ptr 0) (mkMem [mkStein (-5) (-2)] [])
  /\ (exists ts, V1.Conj (Ptr 0) (Ptr 0) m = Ok (Ptr 0) (mkMem [mkStein 3 (-2)] ts))
  /\ V2.Conj (Ptr 0) (Ptr 0) m = Ok (Ptr 0) (mkMem [mkStein 3 (-2)] []).
Proof.
  intro m.
  apply (Neg_Conj_any_receiver m 0 0 (mkStein 5 2) (mkStein 5 2)); reflexivity.
Defined.



(** X4. [Scal] multiplies both components by the integer the scalar pointer
    refers to, for any receiver, as long as the scalar is not the receiver's
    own left component. *)
Theorem Scal_any_receiver (m : mem) (pz py : loc) (a : iref) (cz y : Stein) (k : Z) :
  steins m !! pz = Some cz ->
  steins m !! py = Some y ->
  load a m = Ok k m ->
  a <> FieldL pz ->
  (exists ts,
      V1.Scal (Ptr pz) (Ptr py) a m
      = Ok (Ptr pz) (mkMem (<[pz := mkStein (l y * k) (r y * k)]> (steins m)) (ints m ++ ts)))
  /\ V2.Scal (Ptr pz) (Ptr py) a m
     = Ok (Ptr pz) (mkMem (<[pz := mkStein (l y * k) (r y * k)]> (steins m)) (ints m)).
Proof.
  destruct m as [S I], y as [c d]; cbn [steins ints l r]. intros Hz Hy Ha Hne.
  split; [eexists; eapply V1_Scal_field; eassumption |].
  eapply V2_Scal_field; eassumption.
Qed.

(** z.Scal(z, &z.r) with z = 2+3ω: both components are tripled. *)
Lemma Scal_any_receiver_witness :
  let m := mkMem [mkStein 2 3] [] in
  (exists ts, V1.Scal (Ptr 0) (Ptr 0) (FieldR 0) m = Ok (Ptr 0) (mkMem [mkStein 6 9] ts))
  /\ V2.Scal (Ptr 0) (Ptr 0) (FieldR 0) m = Ok (Ptr 0) (mkMem [mkStein 6 9] []).
Proof.
  intro m.
  apply (Scal_any_receiver m 0 0 (FieldR 0) (mkStein 2 3) (mkStein 2 3) 3);
    first [ reflexivity | discriminate ].
Defined.

(** X5. When the scalar pointer is the receiver's own left component, [Scal]
    reads it again after that component has been replaced: the right
    component is multiplied by the new left component, not by the scalar. *)
Theorem Scal_by_own_left (m : mem) (pz py : loc) (y : Stein) (k b : Z) :
  steins m !! pz = Some (mkStein k b) ->
  steins m !! py = Some y ->
  pz <> py ->
  (exists ts,
      V1.Scal (Ptr pz) (Ptr py) (FieldL pz) m
      = Ok (Ptr pz)
          (mkMem (<[pz := mkStein (l y * k) (r y * (l y * k))]> (steins m)) (ints m ++ ts)))
  /\ V2.Scal (Ptr pz) (Ptr py) (FieldL pz) m
     = Ok (Ptr pz)
         (mkMem (<[pz := mkStein (l y * k) (r y * (l y * k))]> (steins m)) (ints m)).
Proof.
  destruct m as [S I], y as [c d]; cbn [steins ints l r]. intros Hz Hy Hne.
  split; [eexists; unfold V1.Scal | unfold V2.Scal]; run; reflexivity.
Qed.

(** z = 2+0ω, y = 3+5ω: z.Scal(y, &z.l) leaves 6+30ω, not 6+10ω. *)
Lemma Scal_by_own_left_witness :
  let m := mkMem [mkStein 2 0; mkStein 3 5] [] in
  (exists ts, V1.Scal (Ptr 0) (Ptr 1) (FieldL 0) m
              = Ok (Ptr 0) (mkMem [mkStein 6 30; mkStein 3 5] ts))
  /\ V2.Scal (Ptr 0) (Ptr 1) (FieldL 0) m
     = Ok (Ptr 0) (mkMem [mkStein 6 30; mkStein 3 5] []).
Proof.
  intro m.
  apply (Scal_by_own_left m 0 1 (mkStein 3 5) 2 0); first [ reflexivity | lia ].
Defined.

(** *** Comparison and construction *)

(** X6. [Equals] answers [true] exactly when the two values have the same
    components, and writes nothing. *)
Theorem Equals_decides (m : mem) (pz py : loc) (z y : Stein) :
  steins m !! pz = Some z ->
  steins m !! py = Some y ->
  exists b,
    V1.Equals (Ptr pz) (Ptr py) m = Ok b m
    /\ V2.Equals (Ptr pz) (Ptr py) m = Ok b m
    /\ (b = true <-> z = y).
Proof.
  destruct m as [S I], z as [a b], y as [c d]; cbn [steins]. intros Hz Hy.
  exists ((a =? c) && (b =? d))%bool.
  split; [eapply V1_Equals_run; eassumption |].
  split; [eapply V2_Equals_run; eassumption |].
  rewrite andb_true_iff, !Z.eqb_eq. split.
  - intros [-> ->]. reflexivity.
  - intros H. injection H as -> ->. auto.
Qed.

Lemma Equals_decides_witness :
  let m := mkMem [mkStein 1 2; mkStein 1 3] [] in
  exists b,
    V1.Equals (Ptr 0) (Ptr 1) m = Ok b m
    /\ V2.Equals (Ptr 0) (Ptr 1) m = Ok b m
    /\ (b = true <-> mkStein 1 2 = mkStein 1 3).
Proof.
  intro m. apply (Equals_decides m 0 1 (mkStein 1 2) (mkStein 1 3)); reflexivity.
Defined.





(** X9. Every call of [Omega] allocates a new struct holding [0+1ω]: negating
    the result of one call in place, as [Associates] does, leaves the
    result of the next call at [0+1ω]. *)
Theorem Omega_is_fresh (m : mem) :
  (u <- V2.Omega ;; V2.Neg u u ;;; v <- V2.Omega ;; ret (u, v)) m
  = Ok (Ptr (length (steins m)), Ptr (length (steins m) + 1))
       (mkMem (steins m ++ [mkStein 0 (-1); mkStein 0 1]) (ints m ++ [0; 1; 0; 1])).
Proof.
  destruct m as [S I]; cbn [steins ints].
  unfold V2.Omega at 1.
  erewrite bind_ok by (run; reflexivity). norm_mem.
  tcall.
  erewrite bind_ok by (unfold V2.Omega; run; reflexivity). norm_mem.
  reflexivity.
Qed.

(** *** How the operations compose *)

(** X10. [x·conjugate(x)] is the plain integer [quadrance(x)]: after
    [z.Conj(x); z.Mul(x, z)] with [z] another struct than [x], [z] holds
    [(a² + b² - ab) + 0ω], the number [Quad] returns for [x]. *)
Theorem Mul_by_conjugate_is_quadrance (m : mem) (pz px : loc) (cz : Stein) (a b : Z) :
  steins m !! pz = Some cz ->
  steins m !! px = Some (mkStein a b) ->
  pz <> px ->
  exists ts q m',
    (V2.Conj (Ptr pz) (Ptr px) ;;; V2.Mul (Ptr pz) (Ptr px) (Ptr pz)) m
    = Ok (Ptr pz)
        (mkMem (<[pz := mkStein (a * a + b * b - a * b) 0]> (steins m)) (ints m ++ ts))
    /\ V2.Quad (Ptr px) m = Ok q m'
    /\ load q m' = Ok (a * a + b * b - a * b) m'.
Proof.
  destruct m as [S I]; cbn [steins ints]. intros Hz Hx Hne.
  do 3 eexists. split; [| split].
  - do 1 tcall. erewrite V2_Mul_run by solve_lookup. norm_mem. mem_eq.
  - eapply V2_Quad_run; eassumption.
  - solve_access.
Qed.

Lemma Mul_by_conjugate_is_quadrance_witness :
  let m := mkMem [mkStein 2 3; mkStein 0 0] [] in
  exists ts q m',
    (V2.Conj (Ptr 1) (Ptr 0) ;;; V2.Mul (Ptr 1) (Ptr 0) (Ptr 1)) m
    = Ok (Ptr 1) (mkMem [mkStein 2 3; mkStein 7 0] ts)
    /\ V2.Quad (Ptr 0) m = Ok q m'
    /\ load q m' = Ok 7 m'.
Proof.
  intro m.
  apply (Mul_by_conjugate_is_quadrance m 1 0 (mkStein 0 0) 2 3); first [ reflexivity | lia ].
Defined.

(** X11. Division undoes multiplication: if [t] receives [q·y] from [Mul] and
    [y] is not the zero value, [z.Quo(t, y)] leaves [q] in [z].  The
    receiver of the division must not be [t], and [t] must not be [y]. *)
Theorem Quo_undoes_Mul (m : mem) (pz pt pq py : loc) (cz ct q y : Stein) :
  steins m !! pz = Some cz ->
  steins m !! pt = Some ct ->
  steins m !! pq = Some q ->
  steins m !! py = Some y ->
  pz <> pt -> pt <> py ->
  y <> mkStein 0 0 ->
  exists m',
    (V2.Mul (Ptr pt) (Ptr pq) (Ptr py) ;;; V2.Quo (Ptr pz) (Ptr pt) (Ptr py)) m
    = Ok (Ptr pz) m'
    /\ steins m' !! pz = Some q.
Proof.
  destruct m as [S I], q as [a b], y as [c d]; cbn [steins]. intros Hz Ht Hq Hy Hzt Hty Hy0.
  assert (Hn : c * c + d * d - c * d <> 0).
  { intros H. apply quadrance_zero in H as [-> ->]. now apply Hy0. }
  erewrite bind_ok by (eapply V2_Mul_run; eassumption).
  edestruct (V2_Quo_run (<[pt := mkStein (a * c - d * b) (d * a + b * c - b * d)]> S)
               (I ++ [a; b; c; d; b * d]) pz pt py) as [ts ->];
    [solve_lookup | solve_lookup | solve_lookup | assumption | exact Hn |].
  eexists. split; [reflexivity |]. cbn [steins].
  rewrite list_lookup_insert_eq
    by (rewrite length_insert; eapply lookup_lt_Some; eassumption).
  f_equal. f_equal.
  - replace ((a * c - d * b) * (c - d) - - d * (d * a + b * c - b * d))
      with (a * (c * c + d * d - c * d)) by ring.
    now apply Z.quot_mul.
  - replace (- d * (a * c - d * b) + (d * a + b * c - b * d) * (c - d)
             - (d * a + b * c - b * d) * - d)
      with (b * (c * c + d * d - c * d)) by ring.
    now apply Z.quot_mul.
Qed.

(** q = 2-3ω, y = -1+4ω: t := q·y, then z := t / y gives back 2-3ω. *)
Lemma Quo_undoes_Mul_witness :
  let m := mkMem [mkStein 0 0; mkStein 0 0; mkStein 2 (-3); mkStein (-1) 4] [] in
  exists m',
    (V2.Mul (Ptr 1) (Ptr 2) (Ptr 3) ;;; V2.Quo (Ptr 0) (Ptr 1) (Ptr 3)) m = Ok (Ptr 0) m'
    /\ steins m' !! 0%nat = Some (mkStein 2 (-3)).
Proof.
  intro m.
  apply (Quo_undoes_Mul m 0 1 2 3 (mkStein 0 0) (mkStein 0 0) (mkStein 2 (-3)) (mkStein (-1) 4));
    first [ reflexivity | lia | discriminate ].
Defined.

(** *** The property tests hold for the second revision *)

(** X12. [TestAddCommutative]: [Add] commutes: the sums [x + y] and [y + x],
    each in a fresh struct, are equal. The function returns [true] for all
    allocated arguments, equal or not, and leaves them unchanged. *)
Theorem TestAddCommutative_holds (m : mem) (px py : loc) (x y : Stein) :
  steins m !! px = Some x ->
  steins m !! py = Some y ->
  exists ts m',
    Tests.TestAddCommutative (Ptr px) (Ptr py) m = Ok true m'
    /\ steins m' = steins m ++ ts.
Proof.
  destruct m as [S I], x as [a b], y as [c d]; cbn [steins].
  intros Hx Hy. unfold Tests.TestAddCommutative. test_holds.
Qed.

Lemma TestAddCommutative_holds_witness :
  let m := mkMem [mkStein 2 3; mkStein (-1) 4] [] in
  exists ts m',
    Tests.TestAddCommutative (Ptr 0) (Ptr 1) m = Ok true m'
    /\ steins m' = steins m ++ ts.
Proof.
  intro m.
  apply (TestAddCommutative_holds m 0 1 (mkStein 2 3) (mkStein (-1) 4)); reflexivity.
Defined.

(** X13. [TestAddAssociative]: [Add] is associative, with the partial sums
    accumulated in the receiver: [l.Add(l.Add(x, y), z)] equals [r.Add(x,
    r.Add(y, z))]. The function returns [true] for all allocated arguments,
    equal or not, and leaves them unchanged. *)
Theorem TestAddAssociative_holds (m : mem) (px py pz : loc) (x y z : Stein) :
  steins m !! px = Some x ->
  steins m !! py = Some y ->
  steins m !! pz = Some z ->
  exists ts m',
    Tests.TestAddAssociative (Ptr px) (Ptr py) (Ptr pz) m = Ok true m'
    /\ steins m' = steins m ++ ts.
Proof.
  destruct m as [S I], x as [a b], y as [c d], z as [e f]; cbn [steins].
  intros Hx Hy Hz. unfold Tests.TestAddAssociative. test_holds.
Qed.

Lemma TestAddAssociative_holds_witness :
  let m := mkMem [mkStein 2 3; mkStein (-1) 4; mkStein 5 (-2)] [] in
  exists ts m',
    Tests.TestAddAssociative (Ptr 0) (Ptr 1) (Ptr 2) m = Ok true m'
    /\ steins m' = steins m ++ ts.
Proof.
  intro m.
  apply (TestAddAssociative_holds m 0 1 2 (mkStein 2 3) (mkStein (-1) 4) (mkStein 5 (-2))); reflexivity.
Defined.

(** X14. [TestMulCommutative]: [Mul] commutes. The function returns [true]
    for all allocated arguments, equal or not, and leaves them unchanged. *)
Theorem TestMulCommutative_holds (m : mem) (px py : loc) (x y : Stein) :
  steins m !! px = Some x ->
  steins m !! py = Some y ->
  exists ts m',
    Tests.TestMulCommutative (Ptr px) (Ptr py) m = Ok true m'
    /\ steins m' = steins m ++ ts.
Proof.
  destruct m as [S I], x as [a b], y as [c d]; cbn [steins].
  intros Hx Hy. unfold Tests.TestMulCommutative. test_holds.
Qed.

Lemma TestMulCommutative_holds_witness :
  let m := mkMem [mkStein 2 3; mkStein (-1) 4] [] in
  exists ts m',
    Tests.TestMulCommutative (Ptr 0) (Ptr 1) m = Ok true m'
    /\ steins m' = steins m ++ ts.
Proof.
  intro m.
  apply (TestMulCommutative_holds m 0 1 (mkStein 2 3) (mkStein (-1) 4)); reflexivity.
Defined.

(** X15. [TestMulAssociative]: [Mul] is associative, with the partial
    products accumulated in the receiver: [l.Mul(l.Mul(x, y), z)] equals
    [r.Mul(x, r.Mul(y, z))]. The function returns [true] for all allocated
    arguments, equal or not, and leaves them unchanged. *)
Theorem TestMulAssociative_holds (m : mem) (px py pz : loc) (x y z : Stein) :
  steins m !! px = Some x ->
  steins m !! py = Some y ->
  steins m !! pz = Some z ->
  exists ts m',
    Tests.TestMulAssociative (Ptr px) (Ptr py) (Ptr pz) m = Ok true m'
    /\ steins m' = steins m ++ ts.
Proof.
  destruct m as [S I], x as [a b], y as [c d], z as [e f]; cbn [steins].
  intros Hx Hy Hz. unfold Tests.TestMulAssociative. test_holds.
Qed.

Lemma TestMulAssociative_holds_witness :
  let m := mkMem [mkStein 2 3; mkStein (-1) 4; mkStein 5 (-2)] [] in
  exists ts m',
    Tests.TestMulAssociative (Ptr 0) (Ptr 1) (Ptr 2) m = Ok true m'
    /\ steins m' = steins m ++ ts.
Proof.
  intro m.
  apply (TestMulAssociative_holds m 0 1 2 (mkStein 2 3) (mkStein (-1) 4) (mkStein 5 (-2))); reflexivity.
Defined.

(** X16. [TestNegInvolutive]: negating twice in the same struct gives the
    value back. The function returns [true] for all allocated arguments,
    equal or not, and leaves them unchanged. *)
Theorem TestNegInvolutive_holds (m : mem) (px : loc) (x : Stein) :
  steins m !! px = Some x ->
  exists ts m',
    Tests.TestNegInvolutive (Ptr px) m = Ok true m'
    /\ steins m' = steins m ++ ts.
Proof.
  destruct m as [S I], x as [a b]; cbn [steins].
  intros Hx. unfold Tests.TestNegInvolutive. test_holds.
Qed.

Lemma TestNegInvolutive_holds_witness :
  let m := mkMem [mkStein 2 3] [] in
  exists ts m',
    Tests.TestNegInvolutive (Ptr 0) m = Ok true m'
    /\ steins m' = steins m ++ ts.
Proof.
  intro m.
  apply (TestNegInvolutive_holds m 0 (mkStein 2 3)); reflexivity.
Defined.

(** X17. [TestConjInvolutive]: conjugating twice in the same struct gives
    the value back. The function returns [true] for all allocated arguments,
    equal or not, and leaves them unchanged. *)
Theorem TestConjInvolutive_holds (m : mem) (px : loc) (x : Stein) :
  steins m !! px = Some x ->
  exists ts m',
    Tests.TestConjInvolutive (Ptr px) m = Ok true m'
    /\ steins m' = steins m ++ ts.
Proof.
  destruct m as [S I], x as [a b]; cbn [steins].
  intros Hx. unfold Tests.TestConjInvolutive. test_holds.
Qed.

Lemma TestConjInvolutive_holds_witness :
  let m := mkMem [mkStein 2 3] [] in
  exists ts m',
    Tests.TestConjInvolutive (Ptr 0) m = Ok true m'
    /\ steins m' = steins m ++ ts.
Proof.
  intro m.
  apply (TestConjInvolutive_holds m 0 (mkStein 2 3)); reflexivity.
Defined.

(** X18. [TestNegConjCommutative]: [Neg] after [Conj] equals [Conj] after
    [Neg], each pair run in place. The function returns [true] for all
    allocated arguments, equal or not, and leaves them unchanged. *)
Theorem TestNegConjCommutative_holds (m : mem) (px : loc) (x : Stein) :
  steins m !! px = Some x ->
  exists ts m',
    Tests.TestNegConjCommutative (Ptr px) m = Ok true m'
    /\ steins m' = steins m ++ ts.
Proof.
  destruct m as [S I], x as [a b]; cbn [steins].
  intros Hx. unfold Tests.TestNegConjCommutative. test_holds.
Qed.

Lemma TestNegConjCommutative_holds_witness :
  let m := mkMem [mkStein 2 3] [] in
  exists ts m',
    Tests.TestNegConjCommutative (Ptr 0) m = Ok true m'
    /\ steins m' = steins m ++ ts.
Proof.
  intro m.
  apply (TestNegConjCommutative_holds m 0 (mkStein 2 3)); reflexivity.
Defined.

(** X19. [TestMulConjAntiDistributive]: the conjugate of a product is the
    product of the conjugates. The function returns [true] for all allocated
    arguments, equal or not, and leaves them unchanged. *)
Theorem TestMulConjAntiDistributive_holds (m : mem) (px py : loc) (x y : Stein) :
  steins m !! px = Some x ->
  steins m !! py = Some y ->
  exists ts m',
    Tests.TestMulConjAntiDistributive (Ptr px) (Ptr py) m = Ok true m'
    /\ steins m' = steins m ++ ts.
Proof.
  destruct m as [S I], x as [a b], y as [c d]; cbn [steins].
  intros Hx Hy. unfold Tests.TestMulConjAntiDistributive. test_holds.
Qed.

Lemma TestMulConjAntiDistributive_holds_witness :
  let m := mkMem [mkStein 2 3; mkStein (-1) 4] [] in
  exists ts m',
    Tests.TestMulConjAntiDistributive (Ptr 0) (Ptr 1) m = Ok true m'
    /\ steins m' = steins m ++ ts.
Proof.
  intro m.
  apply (TestMulConjAntiDistributive_holds m 0 1 (mkStein 2 3) (mkStein (-1) 4)); reflexivity.
Defined.

(** X20. [TestAddScalDouble]: [x + x] equals [x] scaled by 2. The function
    returns [true] for all allocated arguments, equal or not, and leaves
    them unchanged. *)
Theorem TestAddScalDouble_holds (m : mem) (px : loc) (x : Stein) :
  steins m !! px = Some x ->
  exists ts m',
    Tests.TestAddScalDouble (Ptr px) m = Ok true m'
    /\ steins m' = steins m ++ ts.
Proof.
  destruct m as [S I], x as [a b]; cbn [steins].
  intros Hx. unfold Tests.TestAddScalDouble. test_holds.
Qed.

Lemma TestAddScalDouble_holds_witness :
  let m := mkMem [mkStein 2 3] [] in
  exists ts m',
    Tests.TestAddScalDouble (Ptr 0) m = Ok true m'
    /\ steins m' = steins m ++ ts.
Proof.
  intro m.
  apply (TestAddScalDouble_holds m 0 (mkStein 2 3)); reflexivity.
Defined.

(** X21. [TestSubAntiCommutative]: [x - y] equals the negative of [y - x].
    The function returns [true] for all allocated arguments, equal or not,
    and leaves them unchanged. *)
Theorem TestSubAntiCommutative_holds (m : mem) (px py : loc) (x y : Stein) :
  steins m !! px = Some x ->
  steins m !! py = Some y ->
  exists ts m',
    Tests.TestSubAntiCommutative (Ptr px) (Ptr py) m = Ok true m'
    /\ steins m' = steins m ++ ts.
Proof.
  destruct m as [S I], x as [a b], y as [c d]; cbn [steins].
  intros Hx Hy. unfold Tests.TestSubAntiCommutative. test_holds.
Qed.

Lemma TestSubAntiCommutative_holds_witness :
  let m := mkMem [mkStein 2 3; mkStein (-1) 4] [] in
  exists ts m',
    Tests.TestSubAntiCommutative (Ptr 0) (Ptr 1) m = Ok true m'
    /\ steins m' = steins m ++ ts.
Proof.
  intro m.
  apply (TestSubAntiCommutative_holds m 0 1 (mkStein 2 3) (mkStein (-1) 4)); reflexivity.
Defined.

(** X22. [TestAddConjDistributive]: the conjugate of a sum is the sum of the
    conjugates. The function returns [true] for all allocated arguments,
    equal or not, and leaves them unchanged. *)
Theorem TestAddConjDistributive_holds (m : mem) (px py : loc) (x y : Stein) :
  steins m !! px = Some x ->
  steins m !! py = Some y ->
  exists ts m',
    Tests.TestAddConjDistributive (Ptr px) (Ptr py) m = Ok true m'
    /\ steins m' = steins m ++ ts.
Proof.
  destruct m as [S I], x as [a b], y as [c d]; cbn [steins].
  intros Hx Hy. unfold Tests.TestAddConjDistributive. test_holds.
Qed.

Lemma TestAddConjDistributive_holds_witness :
  let m := mkMem [mkStein 2 3; mkStein (-1) 4] [] in
  exists ts m',
    Tests.TestAddConjDistributive (Ptr 0) (Ptr 1) m = Ok true m'
    /\ steins m' = steins m ++ ts.
Proof.
  intro m.
  apply (TestAddConjDistributive_holds m 0 1 (mkStein 2 3) (mkStein (-1) 4)); reflexivity.
Defined.

(** X23. [TestSubConjDistributive]: the conjugate of a difference is the
    difference of the conjugates. The function returns [true] for all
    allocated arguments, equal or not, and leaves them unchanged. *)
Theorem TestSubConjDistributive_holds (m : mem) (px py : loc) (x y : Stein) :
  steins m !! px = Some x ->
  steins m !! py = Some y ->
  exists ts m',
    Tests.TestSubConjDistributive (Ptr px) (Ptr py) m = Ok true m'
    /\ steins m' = steins m ++ ts.
Proof.
  destruct m as [S I], x as [a b], y as [c d]; cbn [steins].
  intros Hx Hy. unfold Tests.TestSubConjDistributive. test_holds.
Qed.

Lemma TestSubConjDistributive_holds_witness :
  let m := mkMem [mkStein 2 3; mkStein (-1) 4] [] in
  exists ts m',
    Tests.TestSubConjDistributive (Ptr 0) (Ptr 1) m = Ok true m'
    /\ steins m' = steins m ++ ts.
Proof.
  intro m.
  apply (TestSubConjDistributive_holds m 0 1 (mkStein 2 3) (mkStein (-1) 4)); reflexivity.
Defined.

(** X24. [TestAddScalDistributive]: scaling a sum by 2 equals adding the
    scaled values. The function returns [true] for all allocated arguments,
    equal or not, and leaves them unchanged. *)
Theorem TestAddScalDistributive_holds (m : mem) (px py : loc) (x y : Stein) :
  steins m !! px = Some x ->
  steins m !! py = Some y ->
  exists ts m',
    Tests.TestAddScalDistributive (Ptr px) (Ptr py) m = Ok true m'
    /\ steins m' = steins m ++ ts.
Proof.
  destruct m as [S I], x as [a b], y as [c d]; cbn [steins].
  intros Hx Hy. unfold Tests.TestAddScalDistributive. test_holds.
Qed.

Lemma TestAddScalDistributive_holds_witness :
  let m := mkMem [mkStein 2 3; mkStein (-1) 4] [] in
  exists ts m',
    Tests.TestAddScalDistributive (Ptr 0) (Ptr 1) m = Ok true m'
    /\ steins m' = steins m ++ ts.
Proof.
  intro m.
  apply (TestAddScalDistributive_holds m 0 1 (mkStein 2 3) (mkStein (-1) 4)); reflexivity.
Defined.

(** X25. [TestSubScalDistributive]: scaling a difference by 2 equals
    subtracting the scaled values. The function returns [true] for all
    allocated arguments, equal or not, and leaves them unchanged. *)
Theorem TestSubScalDistributive_holds (m : mem) (px py : loc) (x y : Stein) :
  steins m !! px = Some x ->
  steins m !! py = Some y ->
  exists ts m',
    Tests.TestSubScalDistributive (Ptr px) (Ptr py) m = Ok true m'
    /\ steins m' = steins m ++ ts.
Proof.
  destruct m as [S I], x as [a b], y as [c d]; cbn [steins].
  intros Hx Hy. unfold Tests.TestSubScalDistributive. test_holds.
Qed.

Lemma TestSubScalDistributive_holds_witness :
  let m := mkMem [mkStein 2 3; mkStein (-1) 4] [] in
  exists ts m',
    Tests.TestSubScalDistributive (Ptr 0) (Ptr 1) m = Ok true m'
    /\ steins m' = steins m ++ ts.
Proof.
  intro m.
  apply (TestSubScalDistributive_holds m 0 1 (mkStein 2 3) (mkStein (-1) 4)); reflexivity.
Defined.

(** X26. [TestAddNegSub]: [x - y] equals [x + (-y)]. The function returns
    [true] for all allocated arguments, equal or not, and leaves them
    unchanged. *)
Theorem TestAddNegSub_holds (m : mem) (px py : loc) (x y : Stein) :
  steins m !! px = Some x ->
  steins m !! py = Some y ->
  exists ts m',
    Tests.TestAddNegSub (Ptr px) (Ptr py) m = Ok true m'
    /\ steins m' = steins m ++ ts.
Proof.
  destruct m as [S I], x as [a b], y as [c d]; cbn [steins].
  intros Hx Hy. unfold Tests.TestAddNegSub. test_holds.
Qed.

Lemma TestAddNegSub_holds_witness :
  let m := mkMem [mkStein 2 3; mkStein (-1) 4] [] in
  exists ts m',
    Tests.TestAddNegSub (Ptr 0) (Ptr 1) m = Ok true m'
    /\ steins m' = steins m ++ ts.
Proof.
  intro m.
  apply (TestAddNegSub_holds m 0 1 (mkStein 2 3) (mkStein (-1) 4)); reflexivity.
Defined.

(** X27. [TestAddZero]: adding the zero value gives the value back. *)
Theorem TestAddZero_holds (m : mem) (pzero px : loc) (x : Stein) :
  steins m !! pzero = Some (mkStein 0 0) ->
  steins m !! px = Some x ->
  exists ts m',
    Tests.TestAddZero (Ptr pzero) (Ptr px) m = Ok true m'
    /\ steins m' = steins m ++ ts.
Proof.
  destruct m as [S I], x as [a b]; cbn [steins].
  intros Hzero Hx. unfold Tests.TestAddZero. test_holds.
Qed.

Lemma TestAddZero_holds_witness :
  let m := mkMem [mkStein 0 0; mkStein 2 3] [] in
  exists ts m',
    Tests.TestAddZero (Ptr 0) (Ptr 1) m = Ok true m'
    /\ steins m' = steins m ++ ts.
Proof.
  intro m. apply (TestAddZero_holds m 0 1 (mkStein 2 3)); reflexivity.
Defined.

(** X28. [TestMulOne]: multiplying by [1+0ω] gives the value back. *)
Theorem TestMulOne_holds (m : mem) (pone px : loc) (x : Stein) :
  steins m !! pone = Some (mkStein 1 0) ->
  steins m !! px = Some x ->
  exists ts m',
    Tests.TestMulOne (Ptr pone) (Ptr px) m = Ok true m'
    /\ steins m' = steins m ++ ts.
Proof.
  destruct m as [S I], x as [a b]; cbn [steins].
  intros Hone Hx. unfold Tests.TestMulOne. test_holds.
Qed.

Lemma TestMulOne_holds_witness :
  let m := mkMem [mkStein 1 0; mkStein 2 3] [] in
  exists ts m',
    Tests.TestMulOne (Ptr 0) (Ptr 1) m = Ok true m'
    /\ steins m' = steins m ++ ts.
Proof.
  intro m. apply (TestMulOne_holds m 0 1 (mkStein 2 3)); reflexivity.
Defined.

(** X29. [TestQuadPositive]: the function returns [true] for every value but
    [0+0ω], for which it returns [false]; it changes no struct. *)
Theorem TestQuadPositive_nonzero (m : mem) (px : loc) (a b : Z) :
  steins m !! px = Some (mkStein a b) ->
  exists m',
    Tests.TestQuadPositive (Ptr px) m = Ok (negb ((a =? 0) && (b =? 0))) m'
    /\ steins m' = steins m.
Proof.
  destruct m as [S I]; cbn [steins]. intros Hx.
  assert (Hs : (0 <? Z.sgn (a * a + b * b - a * b)) = negb ((a =? 0) && (b =? 0))).
  { destruct (Z.eqb_spec a 0) as [->|Ha]; [destruct (Z.eqb_spec b 0) as [->|Hb] |].
    - reflexivity.
    - cbn [andb negb]. rewrite Z.sgn_pos by (apply quadrance_positive; auto). reflexivity.
    - cbn [andb negb]. rewrite Z.sgn_pos by (apply quadrance_positive; auto). reflexivity. }
  eexists. split.
  - unfold Tests.TestQuadPositive. tcall.
    erewrite bind_ok by (eapply Int_Sign_ok; solve_access).
    unfold ret. rewrite Hs. reflexivity.
  - reflexivity.
Qed.

(** The zero value fails the test, 1-1ω passes it. *)
Lemma TestQuadPositive_nonzero_witness :
  (let m := mkMem [mkStein 0 0] [] in
   exists m', Tests.TestQuadPositive (Ptr 0) m = Ok false m' /\ steins m' = steins m)
  /\
  (let m := mkMem [mkStein 1 (-1)] [] in
   exists m', Tests.TestQuadPositive (Ptr 0) m = Ok true m' /\ steins m' = steins m).
Proof.
  split; intro m.
  - apply (TestQuadPositive_nonzero m 0 0 0); reflexivity.
  - apply (TestQuadPositive_nonzero m 0 1 (-1)); reflexivity.
Defined.

(** ** Text *)












